(** * Directorizer: natural-order ranking, directory scan, promote and
    persisted configuration of [src/main.cpp], embedded and verified.

    Conventions of the embedding.
    - A [wchar_t] is an integer ([Z]); a [std::wstring] is a list of them.
      A [char] of a [std::string] is a byte, again an integer.
    - A cursor into a string is a [nat] index, as in the source; [a !!! i]
      is [a[i]].
    - Every [while] loop is a [Fixpoint] on a fuel argument; the callers
      pass enough fuel and lemmas below show that it never runs out.
    - [unsigned long long] arithmetic is written with its reduction modulo
      [2^64].
    - State is passed explicitly: the file system, the configuration file
      and the controls of the dialog are values, and a function of the
      source that changes one of them returns the new value.

    What lies outside the program is modelled as follows.
    - [iswdigit] and [towlower] are those of ISO C in the "C" locale.
    - [std::sort] is a parameter, constrained by its contract only.
    - [std::filesystem] acts on a map from folder paths to directory
      listings; the names of a listing are compared as they are written,
      and each of them is a file of its own.
    - [WideCharToMultiByte] and [MultiByteToWideChar] with [CP_UTF8] are
      the UTF-8 encoding form.

    The first part of the file holds the definitions, the second the
    lemmas and theorems about them. *)

From Stdlib Require Import ZArith Lia List Bool Ascii String Sorting.Sorted
  Sorting.Permutation.
From stdpp Require Import base list gmap.

#[local] Open Scope nat_scope.
#[local] Open Scope list_scope.

(** ** Characters and strings *)

Abbreviation wchar_t := Z.
Abbreviation wstring := (list Z).

(** A narrow or wide string literal of the source, as its code units. *)
Definition L (s : string) : list Z :=
  List.map (fun c => Z.of_nat (nat_of_ascii c)) (list_ascii_of_string s).

(** [iswdigit] as ISO C defines it: true of the ten decimal digits only. *)
Definition iswdigit (c : wchar_t) : bool := ((48 <=? c) && (c <=? 57))%Z.

(** [towlower] in the "C" locale (the program never calls [setlocale]):
    the letters [A]..[Z] map to [a]..[z], everything else is unchanged. *)
Definition towlower (c : wchar_t) : wchar_t :=
  if ((65 <=? c) && (c <=? 90))%Z then (c + 32)%Z else c.

(** ** The natural comparison, [NaturalLess] *)

Module Natural.

(* c == L' ' || c == L'_' || c == L'-' || c == L'.' *)
Definition IsSep (c : wchar_t) : bool :=
  ((c =? 32) || (c =? 95) || (c =? 45) || (c =? 46))%Z.

(* while (i < na && IsSep(a[i])) ++i; *)
Fixpoint skip_seps (fuel : nat) (a : wstring) (i : nat) : nat :=
  match fuel with
  | O => i
  | S fuel' =>
      if (i <? length a) && IsSep (a !!! i)
      then skip_seps fuel' a (S i)
      else i
  end.

Definition two64 : Z := 2 ^ 64.
Definition two32 : Z := 2 ^ 32.

(* va = va*10 + (unsigned)(a[ia]-L'0'); in unsigned long long *)
Definition accumulate (va : Z) (c : wchar_t) : Z :=
  ((va * 10 + (c - 48) mod two32) mod two64)%Z.

(* while (ia < na && iswdigit(a[ia])) { va = ...; ++ia; } *)
Fixpoint scan_digits (fuel : nat) (a : wstring) (ia : nat) (va : Z) : nat * Z :=
  match fuel with
  | O => (ia, va)
  | S fuel' =>
      if (ia <? length a) && iswdigit (a !!! ia)
      then scan_digits fuel' a (S ia) (accumulate va (a !!! ia))
      else (ia, va)
  end.

(** The outer loop together with the final [return]: [None] only when the
    fuel runs out. *)
Fixpoint NaturalLess_loop (fuel : nat) (a b : wstring) (i j : nat) : option bool :=
  let na := length a in
  let nb := length b in
  match fuel with
  | O => None
  | S fuel' =>
      if negb ((i <? na) && (j <? nb)) then Some (na - i <? nb - j) else
      let i := skip_seps na a i in
      let j := skip_seps nb b j in
      if (na <=? i) || (nb <=? j) then Some (na - i <? nb - j) else
      let ad := iswdigit (a !!! i) in
      let bd := iswdigit (b !!! j) in
      if ad && bd then
        let '(ia, va) := scan_digits na a i 0%Z in
        let '(jb, vb) := scan_digits nb b j 0%Z in
        if negb (va =? vb)%Z then Some (va <? vb)%Z else
        let lena := ia - i in
        let lenb := jb - j in
        if negb (lena =? lenb) then Some (lena <? lenb) else
        NaturalLess_loop fuel' a b ia jb
      else
        let ca := towlower (a !!! i) in
        let cb := towlower (b !!! j) in
        if negb (ca =? cb)%Z then Some (ca <? cb)%Z else
        NaturalLess_loop fuel' a b (S i) (S j)
  end.

Definition NaturalLess (a b : wstring) : bool :=
  default false (NaturalLess_loop (S (length a)) a b 0 0).

(** The three-way reading of the comparator. *)
Inductive ordering := Less | Equal | Greater.

Definition compare (a b : wstring) : ordering :=
  if NaturalLess a b then Less
  else if NaturalLess b a then Greater
  else Equal.

End Natural.

Import Natural.

(** ** The comparison seen on the remaining suffixes

    A cursor [i] into [a] is determined by the suffix [drop i a] that is
    still to be read.  The definitions below restate the three loops on
    suffixes; [NaturalLess_loop_suffix] shows that the index loops of the
    source compute exactly them. *)

Module Suffix.

Fixpoint drop_seps (s : wstring) : wstring :=
  match s with
  | c :: r => if IsSep c then drop_seps r else s
  | [] => []
  end.

(** The maximal run of digits at the head of [s], and what follows it. *)
Fixpoint digit_run (s : wstring) : wstring :=
  match s with
  | c :: r => if iswdigit c then c :: digit_run r else []
  | [] => []
  end.

Fixpoint after_run (s : wstring) : wstring :=
  match s with
  | c :: r => if iswdigit c then after_run r else s
  | [] => []
  end.

(** The value the source accumulates over a run, starting from [v]. *)
Definition run_value (v : Z) (ds : wstring) : Z := fold_left accumulate ds v.

(** The numeric magnitude of a run of digits, as a mathematical integer. *)
Definition magnitude (ds : wstring) : Z :=
  fold_left (fun v c => (v * 10 + (c - 48))%Z) ds 0%Z.

Fixpoint less_suffix (fuel : nat) (sa sb : wstring) : option bool :=
  match fuel with
  | O => None
  | S fuel' =>
      match sa, sb with
      | _ :: _, _ :: _ =>
          let ta := drop_seps sa in
          let tb := drop_seps sb in
          match ta, tb with
          | ca :: ra, cb :: rb =>
              if iswdigit ca && iswdigit cb then
                let va := run_value 0 (digit_run ta) in
                let vb := run_value 0 (digit_run tb) in
                if negb (va =? vb)%Z then Some (va <? vb)%Z else
                let lena := length (digit_run ta) in
                let lenb := length (digit_run tb) in
                if negb (lena =? lenb) then Some (lena <? lenb) else
                less_suffix fuel' (after_run ta) (after_run tb)
              else
                let ca' := towlower ca in
                let cb' := towlower cb in
                if negb (ca' =? cb')%Z then Some (ca' <? cb')%Z else
                less_suffix fuel' ra rb
          | _, _ => Some (length ta <? length tb)
          end
      | _, _ => Some (length sa <? length sb)
      end
  end.

End Suffix.

Import Suffix.

(** ** Lexicographic order on lists *)

Fixpoint lex_ltb {A : Type} (ltb : A -> A -> bool) (k1 k2 : list A) : bool :=
  match k1, k2 with
  | _, [] => false
  | [], _ :: _ => true
  | x :: k1', y :: k2' =>
      if ltb x y then true
      else if ltb y x then false
      else lex_ltb ltb k1' k2'
  end.

(** ** The sort key of a name

    The comparison reads each name as a sequence of tokens: a folded
    character, a number (value as accumulated, then length of the run),
    or a final mark for separators at the very end.  A token is a short
    list of integers, ordered lexicographically, so that the final mark
    (the empty list) is least and a number stands where the digit [0]
    stands among the characters. *)

Module Key.

Definition token_ltb : list Z -> list Z -> bool := lex_ltb Z.ltb.
Definition key_ltb : list (list Z) -> list (list Z) -> bool := lex_ltb token_ltb.

Definition number_token (t : wstring) : list Z :=
  [48%Z; run_value 0 (digit_run t); Z.of_nat (length (digit_run t))].

Fixpoint key_fuel (fuel : nat) (s : wstring) : list (list Z) :=
  match fuel with
  | O => []
  | S fuel' =>
      match s with
      | [] => []
      | _ :: _ =>
          match drop_seps s with
          | [] => [[]]
          | c :: r =>
              if iswdigit c
              then number_token (c :: r) :: key_fuel fuel' (after_run (c :: r))
              else [towlower c] :: key_fuel fuel' r
          end
      end
  end.

Definition sort_key (s : wstring) : list (list Z) := key_fuel (length s) s.

End Key.

Import Key.

(** ** Strict weak orderings

    What [std::sort] requires of its comparison. *)

Record strict_weak_order {A : Type} (lt : A -> A -> bool) : Prop := {
  swo_irrefl : forall x, lt x x = false;
  swo_trans : forall x y z, lt x y = true -> lt y z = true -> lt x z = true;
  swo_equiv_trans :
    forall x y z,
      lt x y = false -> lt y x = false ->
      lt y z = false -> lt z y = false ->
      lt x z = false /\ lt z x = false
}.


(** ** [std::sort]

    The program sorts with [std::sort], whose body belongs to the C++
    library, not to the program.  It enters as a parameter, of which only
    the contract of the C++ standard is assumed: called with a strict weak
    ordering it leaves a permutation of its input in which no element is
    less than an earlier one.  The standard promises nothing about the
    order of equivalent elements. *)

Definition sorted_by {A : Type} (lt : A -> A -> bool) (l : list A) : Prop :=
  StronglySorted (fun x y => lt y x = false) l.

Definition std_sort_contract
    (std_sort : (list Z -> list Z -> bool) -> list (list Z) -> list (list Z))
    : Prop :=
  forall comp l,
    strict_weak_order comp ->
    Permutation l (std_sort comp l) /\ sorted_by comp (std_sort comp l).

(** Two elements are equivalent when neither is less than the other. *)
Definition equiv_by {A : Type} (lt : A -> A -> bool) (x y : A) : bool :=
  negb (lt x y) && negb (lt y x).

(** A rearrangement is stable when every class of equivalent elements
    appears in it in the order it had in the input. *)
Definition stable_by {A : Type} (lt : A -> A -> bool) (input output : list A)
    : Prop :=
  forall x, List.filter (equiv_by lt x) output = List.filter (equiv_by lt x) input.

(** A sorting procedure that meets the contract and is not stable:
    insertion, from the left, in front of the equivalent elements already
    placed. *)
Fixpoint insert_before {A : Type} (lt : A -> A -> bool) (x : A) (l : list A)
    : list A :=
  match l with
  | [] => [x]
  | y :: l' => if lt y x then y :: insert_before lt x l' else x :: l
  end.

Definition front_insertion_sort {A : Type} (lt : A -> A -> bool) (l : list A)
    : list A :=
  fold_left (fun acc x => insert_before lt x acc) l [].

(** ** The file system, as far as the program looks at it *)

Module Fs.

(** What a directory lists under a name.  [Unresolved] is an entry whose
    status cannot be determined (a link whose target is gone, say):
    [is_regular_file(ec)] answers false for it and sets [ec], and
    [fs::exists] answers false. *)
Inductive entry :=
  | RegularFile (content : list Z)
  | SubDirectory
  | SpecialFile
  | Unresolved.

(** The direct children of a directory, in the order in which
    [directory_iterator] yields them; a name is listed once. *)
Abbreviation listing := (list (list Z * entry)).

(** What a folder path names: a directory, which can be opened for
    listing or not, or something that is not a directory.  A path absent
    from the map does not exist. *)
Inductive node :=
  | Directory (listable : bool) (children : listing)
  | NotDirectory.

Abbreviation filesystem := (gmap (list Z) node).

(** [std::error_code]: [None] is the cleared code. *)
Inductive errc :=
  | no_such_file_or_directory
  | file_exists
  | not_supported
  | io_error.

Abbreviation error_code := (option errc).

Fixpoint lookup_entry (name : wstring) (d : listing) : option entry :=
  match d with
  | [] => None
  | (n, e) :: d' => if decide (n = name) then Some e else lookup_entry name d'
  end.

(** Writing a file: in place when the name is listed, else as a new
    entry. *)
Fixpoint store_entry (name : wstring) (e : entry) (d : listing) : listing :=
  match d with
  | [] => [(name, e)]
  | (n, e0) :: d' =>
      if decide (n = name) then (n, e) :: d'
      else (n, e0) :: store_entry name e d'
  end.

(** The entry at [folder / name]. *)
Definition entry_at (fs : filesystem) (folder name : wstring) : option entry :=
  match fs !! folder with
  | Some (Directory _ d) => lookup_entry name d
  | _ => None
  end.

(** The bytes of the regular file at [folder / name]. *)
Definition content_at (fs : filesystem) (folder name : wstring)
    : option (list Z) :=
  match entry_at fs folder name with
  | Some (RegularFile x) => Some x
  | _ => None
  end.

(* fs::exists(folder, ec) *)
Definition exists_dir (fs : filesystem) (folder : wstring) : bool :=
  match fs !! folder with Some _ => true | None => false end.

(* fs::is_directory(folder, ec) *)
Definition is_directory (fs : filesystem) (folder : wstring) : bool :=
  match fs !! folder with Some (Directory _ _) => true | _ => false end.

(* fs::directory_iterator(folder, skip_permission_denied, ec): the entries
   it will yield; none when the directory cannot be opened. *)
Definition directory_iterator (fs : filesystem) (folder : wstring) : listing :=
  match fs !! folder with
  | Some (Directory true d) => d
  | _ => []
  end.

(* entry.is_regular_file(ec): the answer and the new value of ec *)
Definition is_regular_file (e : entry) : bool * error_code :=
  match e with
  | RegularFile _ => (true, None)
  | SubDirectory | SpecialFile => (false, None)
  | Unresolved => (false, Some no_such_file_or_directory)
  end.

(* fs::exists(folder / name, ec) *)
Definition exists_file (fs : filesystem) (folder name : wstring) : bool :=
  match entry_at fs folder name with
  | Some Unresolved | None => false
  | Some _ => true
  end.

(** [fs::copy_file(from, to, copy_options::overwrite_existing, ec)] for two
    names of one folder, after the C++ standard: an error when [from] is
    not a regular file, or when [to] exists, in the sense of [fs::exists],
    and is not a regular file or is the same file as [from]; otherwise
    the content of [from] replaces that of [to], or [to] is created with
    it.  A destination whose status cannot be determined does not exist
    in that sense, so the file is created in its place.  Every name of a
    listing being a file of its own, two names are the same file when
    they are spelled alike.  [os_ok] tells whether the operating system
    carries the copy out: it does not when the destination is locked or
    write-protected, for instance, nor when the two names reach one file
    by a hard link or by spellings that the volume does not distinguish,
    which a listing does not record; a copy it refuses changes
    nothing. *)
Definition copy_file (os_ok : bool) (fs : filesystem)
    (folder from to : wstring) : filesystem * error_code :=
  match fs !! folder with
  | Some (Directory r d) =>
      match lookup_entry from d with
      | Some (RegularFile x) =>
          let written :=
            if os_ok
            then (<[folder := Directory r (store_entry to (RegularFile x) d)]> fs,
                  None)
            else (fs, Some io_error) in
          match lookup_entry to d with
          | None | Some Unresolved => written
          | Some (RegularFile _) =>
              if decide (from = to) then (fs, Some file_exists) else written
          | Some _ => (fs, Some file_exists)
          end
      | Some _ => (fs, Some not_supported)
      | None => (fs, Some no_such_file_or_directory)
      end
  | _ => (fs, Some no_such_file_or_directory)
  end.

End Fs.

Import Fs.

(** ** Scanning a folder: lines 84-95 of [PopulateFileDropdown] *)

Fixpoint starts_with (p s : list Z) : bool :=
  match p, s with
  | [], _ => true
  | _ :: _, [] => false
  | x :: p', y :: s' => (x =? y)%Z && starts_with p' s'
  end.

Definition save_prefix : wstring := L "bf2savefile".

(** The body of the [for] over the directory entries; [ec] is the error
    code shared by the calls, [files] the vector filled so far. *)
Fixpoint scan_entries (entries : listing) (ec : error_code)
    (files : list wstring) : list wstring :=
  match entries with
  | [] => files
  | (name, e) :: rest =>
      match ec with
      | Some _ => files                                       (* break *)
      | None =>
          let '(regular, ec') := is_regular_file e in
          if regular then
            (* name.rfind(L"bf2savefile", 0) != 0 *)
            if negb (starts_with save_prefix name)
            then scan_entries rest ec' files                  (* continue *)
            else scan_entries rest ec' (files ++ [name])
          else scan_entries rest ec' files
      end
  end.

Definition scan (fs : filesystem) (folder : wstring) : list wstring :=
  if negb (exists_dir fs folder) || negb (is_directory fs folder) then []
  else scan_entries (directory_iterator fs folder) None [].

(** What the scan is specified to return, in the words of the
    specification: the names of the entries that are regular files and
    begin with the prefix. *)
Definition is_candidate (ne : list Z * entry) : bool :=
  match snd ne with
  | RegularFile _ => starts_with save_prefix (fst ne)
  | _ => false
  end.

Definition candidates (d : listing) : list wstring :=
  List.map fst (List.filter is_candidate d).

Definition resolved (ne : list Z * entry) : Prop := snd ne <> Unresolved.

(** The entries up to and including the first one whose status query
    fails. *)
Fixpoint until_failure (d : listing) : listing :=
  match d with
  | [] => []
  | (n, Unresolved) :: _ => [(n, Unresolved)]
  | ne :: d' => ne :: until_failure d'
  end.

(** ** Text encoding: [ToUtf8] and [FromUtf8]

    The two helpers call [WideCharToMultiByte] and [MultiByteToWideChar]
    of the operating system with [CP_UTF8], no flags and length [-1]
    (the input ends at its first zero).  The two calls are modelled by
    the UTF-8 encoding form of the Unicode standard: a surrogate pair is
    one code point of four bytes, an unpaired surrogate is written as
    U+FFFD.  Of the handling of malformed UTF-8 only this is modelled:
    each byte that starts no well-formed sequence yields one U+FFFD. *)

Module Utf8.

Definition is_high_surrogate (c : Z) : bool := ((55296 <=? c) && (c <=? 56319))%Z.
Definition is_low_surrogate (c : Z) : bool := ((56320 <=? c) && (c <=? 57343))%Z.
Definition is_continuation (b : Z) : bool := ((128 <=? b) && (b <=? 191))%Z.

Definition replacement_bytes : list Z := [239; 191; 189]%Z.
Definition replacement_unit : Z := 65533%Z.

(** A string up to its terminating zero, as [c_str()] shows it to a
    callee that looks for the terminator. *)
Fixpoint c_str (s : list Z) : list Z :=
  match s with
  | [] => []
  | c :: r => if (c =? 0)%Z then [] else c :: c_str r
  end.

Fixpoint encode (s : wstring) : list Z :=
  match s with
  | [] => []
  | c :: r =>
      if (c <? 128)%Z then c :: encode r
      else if (c <? 2048)%Z then
        (192 + c / 64)%Z :: (128 + c mod 64)%Z :: encode r
      else if is_high_surrogate c then
        match r with
        | d :: r' =>
            if is_low_surrogate d then
              let cp := (65536 + (c - 55296) * 1024 + (d - 56320))%Z in
              (240 + cp / 262144)%Z :: (128 + (cp / 4096) mod 64)%Z
                :: (128 + (cp / 64) mod 64)%Z :: (128 + cp mod 64)%Z
                :: encode r'
            else replacement_bytes ++ encode r
        | [] => replacement_bytes
        end
      else if is_low_surrogate c then replacement_bytes ++ encode r
      else
        (224 + c / 4096)%Z :: (128 + (c / 64) mod 64)%Z
          :: (128 + c mod 64)%Z :: encode r
  end.

Fixpoint decode (s : list Z) : wstring :=
  match s with
  | [] => []
  | b0 :: r =>
      if (b0 <? 128)%Z then b0 :: decode r
      else if ((194 <=? b0) && (b0 <=? 223))%Z then
        match r with
        | b1 :: r1 =>
            if is_continuation b1
            then ((b0 - 192) * 64 + (b1 - 128))%Z :: decode r1
            else replacement_unit :: decode r
        | _ => replacement_unit :: decode r
        end
      else if ((224 <=? b0) && (b0 <=? 239))%Z then
        match r with
        | b1 :: b2 :: r2 =>
            let cp := ((b0 - 224) * 4096 + (b1 - 128) * 64 + (b2 - 128))%Z in
            if is_continuation b1 && is_continuation b2
               && (2048 <=? cp)%Z && negb ((55296 <=? cp) && (cp <=? 57343))%Z
            then cp :: decode r2
            else replacement_unit :: decode r
        | _ => replacement_unit :: decode r
        end
      else if ((240 <=? b0) && (b0 <=? 244))%Z then
        match r with
        | b1 :: b2 :: b3 :: r3 =>
            let cp := ((b0 - 240) * 262144 + (b1 - 128) * 4096
                       + (b2 - 128) * 64 + (b3 - 128))%Z in
            if is_continuation b1 && is_continuation b2 && is_continuation b3
               && (65536 <=? cp)%Z && (cp <=? 1114111)%Z
            then (55296 + (cp - 65536) / 1024)%Z
                   :: (56320 + (cp - 65536) mod 1024)%Z :: decode r3
            else replacement_unit :: decode r
        | _ => replacement_unit :: decode r
        end
      else replacement_unit :: decode r
  end.

(* WideCharToMultiByte(CP_UTF8, 0, s.c_str(), -1, out, len, ...):
   the bytes written, the terminating zero among them *)
Definition WideCharToMultiByte (s : wstring) : list Z :=
  encode (c_str s) ++ [0%Z].

(* MultiByteToWideChar(CP_UTF8, 0, s.c_str(), -1, out, len) *)
Definition MultiByteToWideChar (s : list Z) : wstring :=
  decode (c_str s) ++ [0%Z].

End Utf8.

Definition ToUtf8 (s : wstring) : list Z :=
  match s with
  | [] => []
  | _ :: _ =>
      let len := length (Utf8.WideCharToMultiByte s) in
      let out := repeat 0%Z (if len =? 0 then 0 else len - 1) in
      if 1 <? len then take (length out) (Utf8.WideCharToMultiByte s) else out
  end.

Definition FromUtf8 (s : list Z) : wstring :=
  match s with
  | [] => []
  | _ :: _ =>
      let len := length (Utf8.MultiByteToWideChar s) in
      let out := repeat 0%Z (if len =? 0 then 0 else len - 1) in
      if 1 <? len then take (length out) (Utf8.MultiByteToWideChar s) else out
  end.

(** Text that round-trips: well-formed UTF-16 (every surrogate paired,
    code units in the 16-bit range) without the zero terminator. *)
Fixpoint utf16_text (s : wstring) : bool :=
  match s with
  | [] => true
  | c :: r =>
      (1 <=? c)%Z && (c <=? 65535)%Z &&
      if Utf8.is_high_surrogate c then
        match r with
        | d :: r' => Utf8.is_low_surrogate d && utf16_text r'
        | [] => false
        end
      else negb (Utf8.is_low_surrogate c) && utf16_text r
  end.

(** Text of a path or of a file name: as above and on one line. *)
Definition path_text (s : wstring) : bool :=
  utf16_text s && forallb (fun c => negb (c =? 10)%Z) s.

(** ** The persisted configuration, [config.txt] beside the program *)

Record PersistedState := {
  directory : wstring;
  fileName : wstring;
  pin : bool
}.

(** The file at the fixed location: its bytes when it exists and can be
    read, and whether it can be opened for writing. *)
Record config_file := {
  cfg_bytes : option (list Z);
  cfg_writable : bool
}.

Definition config_text (folder file : wstring) (pinOnTop : bool) : list Z :=
  L "directory=" ++ ToUtf8 folder ++ [10%Z]
  ++ L "file=" ++ ToUtf8 file ++ [10%Z]
  ++ L "pin=" ++ (if pinOnTop then L "1" else L "0") ++ [10%Z].

(** [SaveConfig] returns nothing.  An [ofstream] that failed to open
    ignores what is written to it. *)
Definition SaveConfig (folder file : wstring) (pinOnTop : bool)
    (cfg : config_file) : config_file :=
  if cfg_writable cfg
  then {| cfg_bytes := Some (config_text folder file pinOnTop);
          cfg_writable := true |}
  else cfg.

(** The lines [std::getline] yields one after the other: a line ends at a
    line feed or at the end of the file, and an empty rest yields no
    line.  [line] is the part of the current line read so far. *)
Fixpoint getlines (s line : list Z) : list (list Z) :=
  match s with
  | [] => match line with [] => [] | _ :: _ => [line] end
  | c :: r => if (c =? 10)%Z then line :: getlines r [] else getlines r (line ++ [c])
  end.

(** One turn of the [while] of [LoadConfig] on the locals
    [folder], [file] and [pin]. *)
Definition parse_line (st : PersistedState) (line : list Z) : PersistedState :=
  if starts_with (L "directory=") line then
    {| directory := FromUtf8 (drop 10 line);
       fileName := fileName st; pin := pin st |}
  else if starts_with (L "file=") line then
    {| directory := directory st;
       fileName := FromUtf8 (drop 5 line); pin := pin st |}
  else if starts_with (L "pin=") line then
    {| directory := directory st; fileName := fileName st;
       pin := (4 <? length line) && (line !!! 4%nat =? 49)%Z |}
  else st.

(** Lines 153-166 of [LoadConfig]: [None] is the early [return false];
    otherwise the values of [folder], [file] and [pin] when the file is
    closed.  (The function goes on to show them in the dialog.) *)
Definition LoadConfig (cfg : config_file) : option PersistedState :=
  match cfg_bytes cfg with
  | None => None
  | Some bytes =>
      Some (fold_left parse_line (getlines bytes [])
              {| directory := []; fileName := []; pin := false |})
  end.

(** ** The dialog *)

Record dialog := {
  edit_dir : wstring;               (* text of IDC_EDIT_DIR *)
  combo_items : list wstring;       (* strings of IDC_COMBO_FILES *)
  combo_cursel : Z;                 (* its selection, -1 (CB_ERR) for none *)
  pin_checked : bool;               (* IDC_PIN *)
  status : wstring                  (* text of IDC_STATUS *)
}.

Record world := {
  disk : gmap (list Z) node;
  config : config_file;
  dlg : dialog
}.

(* GetWindowTextW into wchar_t buf[4096] *)
Definition GetText (text : wstring) : wstring := take 4095 text.

Section Dropdown.
Variable std_sort :
  (list Z -> list Z -> bool) -> list (list Z) -> list (list Z).

(* std::sort(files.begin(), files.end(), NaturalLess) *)
Definition rank (names : list wstring) : list wstring :=
  std_sort NaturalLess names.

Definition PopulateFileDropdown (fs : gmap (list Z) node) (folder : wstring)
    (d : dialog) : dialog :=
  let cleared :=                                   (* CB_RESETCONTENT *)
    {| edit_dir := edit_dir d; combo_items := []; combo_cursel := (-1)%Z;
       pin_checked := pin_checked d; status := status d |} in
  if negb (exists_dir fs folder) || negb (is_directory fs folder)
  then cleared
  else
    let files := scan_entries (directory_iterator fs folder) None [] in
    let sorted := rank files in
    {| edit_dir := edit_dir d;
       combo_items := sorted;                      (* CB_ADDSTRING, in order *)
       combo_cursel := match sorted with           (* CB_SETCURSEL 0 *)
                       | [] => (-1)%Z
                       | _ :: _ => 0%Z
                       end;
       pin_checked := pin_checked d;
       status := status d |}.
End Dropdown.

(** Lines 254-262 of [DlgProc]: the copy onto the fixed name. *)
Definition active_name : wstring := L "bf2savefile.sav".

Definition promote (os_ok : bool) (fs : gmap (list Z) node)
    (folder selectedFile : wstring) : gmap (list Z) node * error_code :=
  if negb (match selectedFile with [] => true | _ :: _ => false end)
     && exists_file fs folder selectedFile
  then copy_file os_ok fs folder selectedFile active_name
  else (fs, Some no_such_file_or_directory).

(** The [IDOK] branch of [DlgProc] (lines 242-270): what it reads from
    the controls, then the branch itself.  The strings of the dropdown are
    file names, shorter than the buffer [name[1024]] they are read
    into. *)
Definition IDOK_folder (d : dialog) : wstring := GetText (edit_dir d).

Definition IDOK_selectedFile (d : dialog) : wstring :=
  let idx := combo_cursel d in
  if (0 <=? idx)%Z
  then combo_items d !!! Z.to_nat idx      (* CB_GETLBTEXT *)
  else [].

Definition DlgProc_IDOK (os_ok : bool) (w : world) : world :=
  let folder := IDOK_folder (dlg w) in
  let selectedFile := IDOK_selectedFile (dlg w) in
  let '(fs', ec) := promote os_ok (disk w) folder selectedFile in
  let pinChecked := pin_checked (dlg w) in
  {| disk := fs';
     config := SaveConfig folder selectedFile pinChecked (config w);
     dlg := {| edit_dir := edit_dir (dlg w);
               combo_items := combo_items (dlg w);
               combo_cursel := combo_cursel (dlg w);
               pin_checked := pin_checked (dlg w);
               status := match ec with
                         | Some _ => L "Failed"
                         | None => L "Success!"
                         end |} |}.

(** ** A folder and a dialog to try the definitions on *)

Definition saves_here : gmap (list Z) node :=
  {[ L "C:\saves" :=
       Directory true [(L "bf2savefile3.sav", RegularFile [88%Z]);
                       (active_name, RegularFile [89%Z])] ]}.

Definition dialog_on (items : list (list Z)) (sel : Z) : dialog :=
  {| edit_dir := L "C:\saves"; combo_items := items; combo_cursel := sel;
     pin_checked := true; status := [] |}.

(** ** Further definitions *)

(** Two characters the comparison cannot tell apart: equal after case
    folding, or both separators. *)
Definition same_class (x y : wchar_t) : Prop :=
  towlower x = towlower y \/ (IsSep x = true /\ IsSep y = true).

(** The last line that begins with a key, if any. *)
Definition last_line_with (key : list Z) (lines : list (list Z))
    : option (list Z) :=
  List.find (starts_with key) (rev lines).

(** The state that the lines [ls] of a configuration file leave of [st],
    field by field: the value on the last line with the key of the field,
    and the value of [st] when no line has the key. *)
Definition loaded_from (ls : list (list Z)) (st : PersistedState)
    : PersistedState :=
  {| directory := match last_line_with (L "directory=") ls with
                  | Some l => FromUtf8 (drop 10 l)
                  | None => directory st
                  end;
     fileName := match last_line_with (L "file=") ls with
                 | Some l => FromUtf8 (drop 5 l)
                 | None => fileName st
                 end;
     pin := match last_line_with (L "pin=") ls with
            | Some l => (4 <? length l) && (l !!! 4%nat =? 49)%Z
            | None => pin st
            end |}.

(** The [EN_CHANGE] branch of [DlgProc] for the directory field (lines
    230-234): the dropdown is filled anew from the text of the field. *)
Definition DlgProc_EN_CHANGE
    (std_sort : (list Z -> list Z -> bool) -> list (list Z) -> list (list Z))
    (w : world) : world :=
  let folder := GetText (edit_dir (dlg w)) in
  {| disk := disk w;
     config := config w;
     dlg := PopulateFileDropdown std_sort (disk w) folder (dlg w) |}.

(** The destination can take a copy: no entry has its name, or a regular
    file has. *)
Definition destination_free (fs : gmap (list Z) node) (folder : wstring)
    : Prop :=
  entry_at fs folder active_name = None
  \/ exists y, entry_at fs folder active_name = Some (RegularFile y).

(** The destination can be written: what has its name, if anything, is
    neither a directory nor a special file. *)
Definition destination_writable (fs : gmap (list Z) node) (folder : wstring)
    : Prop :=
  entry_at fs folder active_name <> Some SubDirectory
  /\ entry_at fs folder active_name <> Some SpecialFile.

(** Whether the last character of a name is a separator. *)
Definition ends_with_sep (a : wstring) : bool :=
  match rev a with
  | z :: _ => IsSep z
  | [] => false
  end.
(** * Properties *)

(** ** Index loops against suffixes *)

Lemma drop_cons_lookup (a : wstring) (i : nat) :
  i < length a -> drop i a = (a !!! i) :: drop (S i) a.
Proof.
  intros Hi. apply drop_S. by apply list_lookup_lookup_total_lt.
Qed.

Lemma skip_seps_drop (fuel : nat) (a : wstring) (i : nat) :
  i <= length a -> length a - i <= fuel ->
  drop (skip_seps fuel a i) a = drop_seps (drop i a)
  /\ i <= skip_seps fuel a i <= length a.
Proof.
  revert i. induction fuel as [|fuel IH]; intros i Hi Hf; cbn [skip_seps].
  - rewrite drop_ge by lia. split; [reflexivity | lia].
  - destruct (Nat.ltb_spec i (length a)) as [Hlt|Hge]; cbn [andb].
    + rewrite (drop_cons_lookup a i Hlt). cbn [drop_seps].
      destruct (IsSep (a !!! i)) eqn:Hs.
      * destruct (IH (S i)) as [E B]; [lia | lia |].
        split; [exact E | lia].
      * rewrite <- (drop_cons_lookup a i Hlt). split; [reflexivity | lia].
    + rewrite drop_ge by lia. split; [reflexivity | lia].
Qed.

Lemma scan_digits_drop (fuel : nat) (a : wstring) (i : nat) (v : Z) :
  i <= length a -> length a - i <= fuel ->
  scan_digits fuel a i v
  = (i + length (digit_run (drop i a)), run_value v (digit_run (drop i a)))
  /\ drop (i + length (digit_run (drop i a))) a = after_run (drop i a)
  /\ i + length (digit_run (drop i a)) <= length a.
Proof.
  revert i v. induction fuel as [|fuel IH]; intros i v Hi Hf;
    cbn [scan_digits].
  - rewrite (drop_ge a i) by lia. cbn. rewrite Nat.add_0_r.
    rewrite drop_ge by lia. repeat split; lia.
  - destruct (Nat.ltb_spec i (length a)) as [Hlt|Hge]; cbn [andb].
    + rewrite (drop_cons_lookup a i Hlt). cbn [digit_run after_run].
      destruct (iswdigit (a !!! i)) eqn:Hd.
      * destruct (IH (S i) (accumulate v (a !!! i))) as (E & D & B);
          [lia | lia |].
        cbn [length run_value fold_left].
        replace (i + S (length (digit_run (drop (S i) a))))
          with (S i + length (digit_run (drop (S i) a))) by lia.
        rewrite E. repeat split; [exact D | lia].
      * cbn [length run_value fold_left]. rewrite Nat.add_0_r.
        rewrite <- (drop_cons_lookup a i Hlt).
        repeat split; lia.
    + rewrite (drop_ge a i) by lia. cbn. rewrite Nat.add_0_r.
      rewrite drop_ge by lia. repeat split; lia.
Qed.

(** The outer loop of the source is the suffix loop at the two cursors. *)
Lemma NaturalLess_loop_suffix (fuel : nat) (a b : wstring) (i j : nat) :
  i <= length a -> j <= length b ->
  NaturalLess_loop fuel a b i j = less_suffix fuel (drop i a) (drop j b).
Proof.
  revert i j. induction fuel as [|fuel IH]; intros i j Hi Hj; [reflexivity|].
  cbn [NaturalLess_loop less_suffix]. cbv zeta.
  destruct (Nat.ltb_spec i (length a)) as [Hlt|Hge]; cbn [andb negb].
  2:{ rewrite (drop_ge a i) by lia. cbn [length].
      rewrite length_drop.
      replace (length a - i) with 0 by lia. reflexivity. }
  destruct (Nat.ltb_spec j (length b)) as [Hlt'|Hge']; cbn [andb negb].
  2:{ rewrite (drop_ge b j) by lia.
      rewrite (drop_cons_lookup a i Hlt). cbn [length].
      replace (length b - j) with 0 by lia.
      reflexivity. }
  destruct (skip_seps_drop (length a) a i) as [Ea Ba]; [lia | lia |].
  destruct (skip_seps_drop (length b) b j) as [Eb Bb]; [lia | lia |].
  set (i' := skip_seps (length a) a i) in *.
  set (j' := skip_seps (length b) b j) in *.
  rewrite (drop_cons_lookup a i Hlt) at 1.
  rewrite (drop_cons_lookup b j Hlt') at 1.
  cbv iota beta.
  rewrite <- Ea, <- Eb.
  destruct (Nat.leb_spec (length a) i') as [Hea|Hia]; cbn [orb].
  { rewrite (drop_ge a i') by lia. cbn [length]. rewrite length_drop.
    replace (length a - i') with 0 by lia. reflexivity. }
  destruct (Nat.leb_spec (length b) j') as [Heb|Hjb]; cbn [orb].
  { rewrite (drop_ge b j') by lia. rewrite (drop_cons_lookup a i' Hia).
    cbn [length]. replace (length b - j') with 0 by lia.
    reflexivity. }
  rewrite (drop_cons_lookup a i' Hia), (drop_cons_lookup b j' Hjb).
  cbv iota beta.
  destruct (iswdigit (a !!! i') && iswdigit (b !!! j')) eqn:Hd.
  - rewrite <- (drop_cons_lookup a i' Hia), <- (drop_cons_lookup b j' Hjb).
    destruct (scan_digits_drop (length a) a i' 0%Z) as (Sa & Da & La);
      [lia | lia |].
    destruct (scan_digits_drop (length b) b j' 0%Z) as (Sb & Db & Lb);
      [lia | lia |].
    rewrite Sa, Sb.
    destruct (negb (_ =? _)%Z); [reflexivity|].
    replace (i' + length (digit_run (drop i' a)) - i')
      with (length (digit_run (drop i' a))) by lia.
    replace (j' + length (digit_run (drop j' b)) - j')
      with (length (digit_run (drop j' b))) by lia.
    destruct (negb (_ =? _)); [reflexivity|].
    rewrite IH by lia. rewrite Da, Db. reflexivity.
  - destruct (negb (_ =? _)%Z); [reflexivity|].
    apply IH; lia.
Qed.

(** ** Lexicographic order on lists *)

Section Lex.
Context {A : Type} (ltb : A -> A -> bool).

Hypothesis ltb_irrefl : forall x, ltb x x = false.
Hypothesis ltb_trans :
  forall x y z, ltb x y = true -> ltb y z = true -> ltb x z = true.
Hypothesis ltb_total :
  forall x y, ltb x y = false -> ltb y x = false -> x = y.

Lemma ltb_asym x y : ltb x y = true -> ltb y x = false.
Proof.
  intros H. destruct (ltb y x) eqn:E; [|reflexivity].
  rewrite <- (ltb_irrefl x). symmetry. eapply ltb_trans; eassumption.
Qed.

Lemma lex_ltb_irrefl k : lex_ltb ltb k k = false.
Proof.
  induction k as [|x k IH]; [reflexivity|].
  cbn. rewrite ltb_irrefl. exact IH.
Qed.

Lemma lex_ltb_cons_true x y k1 k2 :
  lex_ltb ltb (x :: k1) (y :: k2) = true <->
  ltb x y = true \/ (x = y /\ lex_ltb ltb k1 k2 = true).
Proof.
  cbn. destruct (ltb x y) eqn:Exy.
  - split; auto.
  - destruct (ltb y x) eqn:Eyx.
    + split; [discriminate|].
      intros [H|[-> H]]; [discriminate|]. congruence.
    + pose proof (ltb_total _ _ Exy Eyx) as ->.
      split; [auto|]. intros [H|[_ H]]; [discriminate | exact H].
Qed.

Lemma lex_ltb_trans k1 k2 k3 :
  lex_ltb ltb k1 k2 = true -> lex_ltb ltb k2 k3 = true -> lex_ltb ltb k1 k3 = true.
Proof.
  revert k2 k3. induction k1 as [|x k1 IH]; intros [|y k2] [|z k3];
    try (cbn; congruence).
  rewrite !lex_ltb_cons_true.
  intros [H1|[-> H1]] [H2|[-> H2]].
  - left. eapply ltb_trans; eassumption.
  - left. exact H1.
  - left. exact H2.
  - right. split; [reflexivity|]. eapply IH; eassumption.
Qed.

Lemma lex_ltb_total k1 k2 :
  lex_ltb ltb k1 k2 = false -> lex_ltb ltb k2 k1 = false -> k1 = k2.
Proof.
  revert k2. induction k1 as [|x k1 IH]; intros [|y k2]; cbn;
    try congruence.
  destruct (ltb x y) eqn:Exy; [discriminate|].
  destruct (ltb y x) eqn:Eyx; [discriminate|].
  intros H1 H2. rewrite (ltb_total _ _ Exy Eyx). f_equal. auto.
Qed.
End Lex.

Lemma Zltb_irrefl (x : Z) : (x <? x)%Z = false.
Proof. apply Z.ltb_irrefl. Qed.

Lemma Zltb_trans (x y z : Z) :
(x <? y)%Z = true -> (y <? z)%Z = true -> (x <? z)%Z = true.
Proof. rewrite !Z.ltb_lt. lia. Qed.

Lemma Zltb_total (x y : Z) :
(x <? y)%Z = false -> (y <? x)%Z = false -> x = y.
Proof. rewrite !Z.ltb_ge. lia. Qed.

Lemma token_ltb_irrefl t : token_ltb t t = false.
Proof. apply lex_ltb_irrefl, Zltb_irrefl. Qed.

Lemma token_ltb_trans t1 t2 t3 :
  token_ltb t1 t2 = true -> token_ltb t2 t3 = true -> token_ltb t1 t3 = true.
Proof. apply lex_ltb_trans; [apply Zltb_trans | apply Zltb_total]. Qed.

Lemma token_ltb_total t1 t2 :
  token_ltb t1 t2 = false -> token_ltb t2 t1 = false -> t1 = t2.
Proof. apply lex_ltb_total, Zltb_total. Qed.

Lemma key_ltb_irrefl k : key_ltb k k = false.
Proof. apply lex_ltb_irrefl, token_ltb_irrefl. Qed.

Lemma key_ltb_trans k1 k2 k3 :
  key_ltb k1 k2 = true -> key_ltb k2 k3 = true -> key_ltb k1 k3 = true.
Proof.
  apply lex_ltb_trans; [apply token_ltb_trans | apply token_ltb_total].
Qed.

Lemma key_ltb_total k1 k2 :
  key_ltb k1 k2 = false -> key_ltb k2 k1 = false -> k1 = k2.
Proof. apply lex_ltb_total, token_ltb_total. Qed.

Lemma drop_seps_length (s : wstring) : length (drop_seps s) <= length s.
Proof.
  induction s as [|c s IH]; cbn; [lia|].
  destruct (IsSep c); cbn; lia.
Qed.

Lemma after_run_length (s : wstring) : length (after_run s) <= length s.
Proof.
  induction s as [|c s IH]; cbn; [lia|].
  destruct (iswdigit c); cbn; lia.
Qed.

Lemma key_fuel_enough (f1 f2 : nat) (s : wstring) :
  length s <= f1 -> length s <= f2 -> key_fuel f1 s = key_fuel f2 s.
Proof.
  revert f2 s. induction f1 as [|f1 IH]; intros f2 s H1 H2.
  - destruct s; [|cbn in H1; lia]. destruct f2; reflexivity.
  - destruct s as [|c s]; [destruct f2; reflexivity|].
    destruct f2 as [|f2]; [cbn in H2; lia|].
    cbn [key_fuel].
    pose proof (drop_seps_length (c :: s)) as Hd.
    destruct (drop_seps (c :: s)) as [|d r]; [reflexivity|].
    cbn [length] in *.
    destruct (iswdigit d) eqn:Ed.
    + f_equal. pose proof (after_run_length r).
      cbn [after_run]. rewrite Ed. apply IH; lia.
    + f_equal. apply IH; lia.
Qed.

Lemma sort_key_cons (c : Z) (s : wstring) :
  sort_key (c :: s) =
  match drop_seps (c :: s) with
  | [] => [[]]
  | d :: r =>
      if iswdigit d
      then number_token (d :: r) :: sort_key (after_run (d :: r))
      else [towlower d] :: sort_key r
  end.
Proof.
  unfold sort_key. cbn [length key_fuel].
  pose proof (drop_seps_length (c :: s)) as Hd.
  destruct (drop_seps (c :: s)) as [|d r]; [reflexivity|].
  cbn [length] in Hd.
  destruct (iswdigit d) eqn:Ed.
  - f_equal. pose proof (after_run_length r).
    cbn [after_run]. rewrite Ed. apply key_fuel_enough; lia.
  - f_equal. apply key_fuel_enough; lia.
Qed.

Lemma towlower_digit (c : Z) : iswdigit (towlower c) = iswdigit c.
Proof.
  unfold towlower, iswdigit.
  destruct (Z.leb_spec 65 c); destruct (Z.leb_spec c 90); cbn;
    destruct (Z.leb_spec 48 c); destruct (Z.leb_spec c 57);
    destruct (Z.leb_spec 48 (c + 32)); destruct (Z.leb_spec (c + 32) 57);
    cbn; try reflexivity; lia.
Qed.

(** The suffix loop decides the lexicographic order of the sort keys. *)
Lemma less_suffix_key (fuel : nat) (sa sb : wstring) (r : bool) :
  less_suffix fuel sa sb = Some r ->
  r = key_ltb (sort_key sa) (sort_key sb).
Proof.
  revert sa sb r.
  induction fuel as [|fuel IH]; intros sa sb res H; [discriminate|].
  destruct sa as [|x sa], sb as [|y sb]; cbn [less_suffix] in H.
  - injection H as <-. reflexivity.
  - injection H as <-. rewrite sort_key_cons.
    destruct (drop_seps (y :: sb)) as [|d r']; [reflexivity|].
    destruct (iswdigit d); reflexivity.
  - injection H as <-. unfold key_ltb.
    destruct (sort_key (x :: sa)); reflexivity.
  - rewrite (sort_key_cons x sa), (sort_key_cons y sb).
    cbv zeta in H.
    destruct (drop_seps (x :: sa)) as [|ca ra] eqn:Ea;
      destruct (drop_seps (y :: sb)) as [|cb rb] eqn:Eb.
    + injection H as <-. reflexivity.
    + injection H as <-. destruct (iswdigit cb); reflexivity.
    + injection H as <-. destruct (iswdigit ca); reflexivity.
    + destruct (iswdigit ca) eqn:Da; destruct (iswdigit cb) eqn:Db;
        cbn [andb] in H.
      * unfold number_token, key_ltb. cbn [lex_ltb].
        unfold token_ltb at 1 2. cbn [lex_ltb].
        rewrite Z.ltb_irrefl.
        set (va := run_value 0 (digit_run (ca :: ra))) in *.
        set (vb := run_value 0 (digit_run (cb :: rb))) in *.
        set (la := length (digit_run (ca :: ra))) in *.
        set (lb := length (digit_run (cb :: rb))) in *.
        destruct (Z.eqb_spec va vb) as [Ev|Ev]; cbn [negb] in H.
        2:{ injection H as <-.
            destruct (Z.ltb_spec va vb); [reflexivity|].
            destruct (Z.ltb_spec vb va); [reflexivity | lia]. }
        rewrite Ev, Z.ltb_irrefl.
        destruct (Nat.eqb_spec la lb) as [El|El]; cbn [negb] in H.
        2:{ injection H as <-.
            destruct (Nat.ltb_spec la lb);
              destruct (Z.ltb_spec (Z.of_nat la) (Z.of_nat lb));
              destruct (Z.ltb_spec (Z.of_nat lb) (Z.of_nat la));
              try reflexivity; lia. }
        rewrite El, Z.ltb_irrefl. apply IH in H. exact H.
      * unfold iswdigit in Da. rewrite <- (towlower_digit cb) in Db.
        unfold iswdigit in Db.
        assert (Hca : towlower ca = ca).
        { unfold towlower.
          destruct (Z.leb_spec 65 ca); destruct (Z.leb_spec ca 90);
            cbn; try reflexivity. lia. }
        rewrite Hca in H.
        unfold number_token, key_ltb. cbn [lex_ltb].
        unfold token_ltb. cbn [lex_ltb].
        destruct (Z.eqb_spec ca (towlower cb)) as [Ev|Ev]; [lia|].
        cbn [negb] in H. injection H as <-.
        destruct (Z.ltb_spec ca (towlower cb));
          destruct (Z.ltb_spec 48 (towlower cb));
          destruct (Z.ltb_spec (towlower cb) 48); try reflexivity; lia.
      * unfold iswdigit in Db. rewrite <- (towlower_digit ca) in Da.
        unfold iswdigit in Da.
        assert (Hcb : towlower cb = cb).
        { unfold towlower.
          destruct (Z.leb_spec 65 cb); destruct (Z.leb_spec cb 90);
            cbn; try reflexivity. lia. }
        rewrite Hcb in H.
        unfold number_token, key_ltb. cbn [lex_ltb].
        unfold token_ltb. cbn [lex_ltb].
        destruct (Z.eqb_spec (towlower ca) cb) as [Ev|Ev]; [lia|].
        cbn [negb] in H. injection H as <-.
        destruct (Z.ltb_spec (towlower ca) cb);
          destruct (Z.ltb_spec 48 (towlower ca));
          destruct (Z.ltb_spec (towlower ca) 48); try reflexivity; lia.
      * unfold key_ltb. cbn [lex_ltb]. unfold token_ltb. cbn [lex_ltb].
        destruct (Z.eqb_spec (towlower ca) (towlower cb)) as [Ev|Ev];
          cbn [negb] in H.
        2:{ injection H as <-.
            destruct (Z.ltb_spec (towlower ca) (towlower cb)); [reflexivity|].
            destruct (Z.ltb_spec (towlower cb) (towlower ca));
              [reflexivity | lia]. }
        rewrite Ev, Z.ltb_irrefl. apply IH in H. exact H.
Qed.

(** ** Termination of the comparison *)

Lemma less_suffix_total (fuel : nat) (sa sb : wstring) :
  length sa < fuel -> exists r, less_suffix fuel sa sb = Some r.
Proof.
  revert sa sb. induction fuel as [|fuel IH]; intros sa sb Hf; [lia|].
  destruct sa as [|x sa], sb as [|y sb]; cbn [less_suffix]; eauto.
  cbv zeta.
  pose proof (drop_seps_length (x :: sa)) as Ha.
  destruct (drop_seps (x :: sa)) as [|ca ra]; eauto.
  destruct (drop_seps (y :: sb)) as [|cb rb]; eauto.
  cbn [length] in *.
  destruct (iswdigit ca) eqn:Da; cbn [andb].
  - destruct (iswdigit cb).
    + destruct (negb _); eauto. destruct (negb _); eauto.
      apply IH. cbn [after_run]. rewrite Da.
      pose proof (after_run_length ra). lia.
    + destruct (negb _); eauto. apply IH. lia.
  - destruct (negb _); eauto. apply IH. lia.
Qed.

Lemma NaturalLess_loop_terminates (a b : wstring) :
  exists r, NaturalLess_loop (S (length a)) a b 0 0 = Some r.
Proof.
  rewrite NaturalLess_loop_suffix by lia. rewrite !drop_0.
  apply less_suffix_total. lia.
Qed.

Lemma NaturalLess_loop_result (a b : wstring) :
  NaturalLess_loop (S (length a)) a b 0 0 = Some (NaturalLess a b).
Proof.
  unfold NaturalLess.
  destruct (NaturalLess_loop_terminates a b) as [r ->]. reflexivity.
Qed.

(** [NaturalLess] is the lexicographic order of the sort keys. *)
Lemma NaturalLess_key (a b : wstring) :
  NaturalLess a b = key_ltb (sort_key a) (sort_key b).
Proof.
  pose proof (NaturalLess_loop_result a b) as H.
  rewrite NaturalLess_loop_suffix in H by lia. rewrite !drop_0 in H.
  exact (less_suffix_key _ _ _ _ H).
Qed.

(** ** [NaturalLess] is a strict weak ordering *)

Lemma NaturalLess_strict_weak_order : strict_weak_order NaturalLess.
Proof.
  split.
  - intros x. rewrite NaturalLess_key. apply key_ltb_irrefl.
  - intros x y z. rewrite !NaturalLess_key. apply key_ltb_trans.
  - intros x y z. rewrite !NaturalLess_key. intros H1 H2 H3 H4.
    rewrite (key_ltb_total _ _ H1 H2), (key_ltb_total _ _ H3 H4).
    split; apply key_ltb_irrefl.
Qed.

(** ** Digit runs: accumulated value against numeric magnitude *)

Lemma digit_run_digits (s : wstring) :
  Forall (fun c => iswdigit c = true) (digit_run s).
Proof.
  induction s as [|c s IH]; cbn; [constructor|].
  destruct (iswdigit c) eqn:E; constructor; assumption.
Qed.

Lemma iswdigit_range (c : Z) : iswdigit c = true -> (48 <= c <= 57)%Z.
Proof.
  unfold iswdigit. rewrite andb_true_iff, !Z.leb_le. tauto.
Qed.

Lemma accumulate_digit (v c : Z) :
  iswdigit c = true ->
  accumulate (v mod two64) c = ((v * 10 + (c - 48)) mod two64)%Z.
Proof.
  intros Hc. apply iswdigit_range in Hc. unfold accumulate.
  rewrite (Z.mod_small (c - 48) two32) by (unfold two32; lia).
  unfold two64.
  rewrite Z.add_mod, Z.mul_mod, Z.mod_mod by lia.
  rewrite <- Z.mul_mod, <- Z.add_mod by lia. reflexivity.
Qed.

Lemma run_value_mod (ds : wstring) (v : Z) :
  Forall (fun c => iswdigit c = true) ds ->
  run_value (v mod two64) ds
  = (fold_left (fun v c => (v * 10 + (c - 48))%Z) ds v mod two64)%Z.
Proof.
  intros H. revert v. induction H as [|c ds Hc _ IH]; intros v;
    [reflexivity|].
  cbn [run_value fold_left]. rewrite accumulate_digit by exact Hc.
  apply IH.
Qed.

Lemma magnitude_nonneg_from (ds : wstring) (v : Z) :
  Forall (fun c => iswdigit c = true) ds -> (0 <= v)%Z ->
  (0 <= fold_left (fun v c => (v * 10 + (c - 48))%Z) ds v)%Z.
Proof.
  intros H. revert v. induction H as [|c ds Hc _ IH]; intros v Hv;
    [exact Hv|].
  cbn [fold_left]. apply IH. apply iswdigit_range in Hc. lia.
Qed.

(** Below [2^64] the accumulated value is the magnitude of the run. *)
Lemma run_value_magnitude (s : wstring) :
  (magnitude (digit_run s) < two64)%Z ->
  run_value 0 (digit_run s) = magnitude (digit_run s).
Proof.
  intros Hlt. pose proof (digit_run_digits s) as Hd.
  change 0%Z with (0 mod two64)%Z at 1.
  rewrite run_value_mod by exact Hd.
  apply Z.mod_small. split; [|exact Hlt].
  apply magnitude_nonneg_from; [exact Hd | lia].
Qed.

(** One round of the loop that finds a digit under both cursors. *)
Lemma NaturalLess_loop_digits (fuel : nat) (a b : wstring) (i j : nat) :
  i < length a -> j < length b ->
  skip_seps (length a) a i < length a ->
  skip_seps (length b) b j < length b ->
  iswdigit (a !!! skip_seps (length a) a i) = true ->
  iswdigit (b !!! skip_seps (length b) b j) = true ->
  NaturalLess_loop (S fuel) a b i j =
  let ra := digit_run (drop (skip_seps (length a) a i) a) in
  let rb := digit_run (drop (skip_seps (length b) b j) b) in
  if negb (run_value 0 ra =? run_value 0 rb)%Z
  then Some (run_value 0 ra <? run_value 0 rb)%Z
  else if negb (length ra =? length rb)
       then Some (length ra <? length rb)
       else NaturalLess_loop fuel a b
              (skip_seps (length a) a i + length ra)
              (skip_seps (length b) b j + length rb).
Proof.
  intros Hi Hj Hi' Hj' Da Db.
  cbn [NaturalLess_loop]. cbv zeta.
  rewrite (proj2 (Nat.ltb_lt _ _) Hi), (proj2 (Nat.ltb_lt _ _) Hj).
  cbn [andb negb].
  set (i' := skip_seps (length a) a i) in *.
  set (j' := skip_seps (length b) b j) in *.
  rewrite (proj2 (Nat.leb_gt _ _) Hi'), (proj2 (Nat.leb_gt _ _) Hj').
  cbn [orb]. rewrite Da, Db. cbn [andb].
  destruct (scan_digits_drop (length a) a i' 0%Z) as (Sa & _); [lia | lia |].
  destruct (scan_digits_drop (length b) b j' 0%Z) as (Sb & _); [lia | lia |].
  rewrite Sa, Sb.
  replace (i' + length (digit_run (drop i' a)) - i')
    with (length (digit_run (drop i' a))) by lia.
  replace (j' + length (digit_run (drop j' b)) - j')
    with (length (digit_run (drop j' b))) by lia.
  reflexivity.
Qed.

(** ** Sorting *)

Section SortFacts.
Context {A : Type} (lt : A -> A -> bool).
Hypothesis lt_swo : strict_weak_order lt.

Lemma swo_asym (x y : A) : lt x y = true -> lt y x = false.
Proof.
  intros H. destruct (lt y x) eqn:E; [|reflexivity].
  rewrite <- (swo_irrefl lt lt_swo x). symmetry.
  eapply swo_trans; eassumption.
Qed.

(** "Not less" is transitive. *)
Lemma swo_not_less_trans (x y z : A) :
  lt y x = false -> lt z y = false -> lt z x = false.
Proof.
  intros Hyx Hzy. destruct (lt z x) eqn:Hzx; [|reflexivity].
  destruct (lt y z) eqn:Hyz.
  { rewrite <- Hyx. symmetry. eapply swo_trans; eassumption. }
  destruct (lt x y) eqn:Hxy.
  { rewrite <- Hzy. symmetry. eapply swo_trans; eassumption. }
  destruct (swo_equiv_trans lt lt_swo z y x Hzy Hyz Hyx Hxy) as [E _].
  congruence.
Qed.

Lemma insert_before_perm (x : A) (l : list A) :
  Permutation (x :: l) (insert_before lt x l).
Proof.
  induction l as [|y l IH]; cbn; [reflexivity|].
  destruct (lt y x); [|reflexivity].
  rewrite perm_swap. apply perm_skip. exact IH.
Qed.

Lemma insert_before_sorted (x : A) (l : list A) :
  sorted_by lt l -> sorted_by lt (insert_before lt x l).
Proof.
  unfold sorted_by. induction 1 as [|y l Hs IH Hy]; cbn.
  - constructor; constructor.
  - destruct (lt y x) eqn:Hyx.
    + constructor; [exact IH|].
      rewrite <- (insert_before_perm x l). constructor; [|exact Hy].
      apply swo_asym. exact Hyx.
    + constructor; [constructor; assumption|].
      constructor; [exact Hyx|].
      eapply Forall_impl; [exact Hy|].
      intros z Hz. cbv beta in *. eapply swo_not_less_trans; eassumption.
Qed.

Lemma front_insertion_sort_from (l acc : list A) :
  sorted_by lt acc ->
  Permutation (acc ++ l) (fold_left (fun acc x => insert_before lt x acc) l acc)
  /\ sorted_by lt (fold_left (fun acc x => insert_before lt x acc) l acc).
Proof.
  revert acc. induction l as [|x l IH]; intros acc Hacc; cbn.
  - rewrite app_nil_r. split; [reflexivity | exact Hacc].
  - destruct (IH (insert_before lt x acc)) as [P S].
    { apply insert_before_sorted. exact Hacc. }
    split; [|exact S].
    rewrite <- P. rewrite <- insert_before_perm.
    symmetry. apply Permutation_middle.
Qed.

Lemma front_insertion_sort_correct (l : list A) :
  Permutation l (front_insertion_sort lt l)
  /\ sorted_by lt (front_insertion_sort lt l).
Proof.
  apply (front_insertion_sort_from l []). constructor.
Qed.
End SortFacts.

Lemma front_insertion_sort_contract : std_sort_contract front_insertion_sort.
Proof.
  intros comp l Hswo. apply front_insertion_sort_correct. exact Hswo.
Qed.

Lemma rank_within_contract
    (std_sort : (list Z -> list Z -> bool) -> list (list Z) -> list (list Z))
    (names : list (list Z)) :
  std_sort_contract std_sort ->
  Permutation names (rank std_sort names)
  /\ sorted_by NaturalLess (rank std_sort names).
Proof.
  intros Hc. exact (Hc NaturalLess names NaturalLess_strict_weak_order).
Qed.

Lemma rank_save2_save02
    (std_sort : (list Z -> list Z -> bool) -> list (list Z) -> list (list Z)) :
  std_sort_contract std_sort ->
  rank std_sort [L "save02"; L "save2"] = [L "save2"; L "save02"].
Proof.
  intros Hc.
  destruct (rank_within_contract std_sort [L "save02"; L "save2"] Hc)
    as [P S].
  apply Permutation_length_2_inv in P. destruct P as [E|E]; [|exact E].
  rewrite E in S. unfold sorted_by in S.
  apply StronglySorted_inv in S as [_ F].
  apply Forall_inv in F. vm_compute in F. discriminate F.
Qed.

(** ** Numeric comparison of digit runs *)

(** C1 (as amended): at every round of the loop at which, after the
    separators are skipped, both cursors stand on a decimal digit, and the
    magnitudes of the two maximal digit runs are below [2^64], the run of
    smaller magnitude decides the comparison as Less ([NaturalLess] is true
    for it and false the other way round); when the magnitudes are equal
    and the runs differ in length, the shorter run compares Less.  In
    particular ["2"] compares Less than ["02"], and ranking
    ["save02"; "save2"] yields ["save2"; "save02"]. *)
Theorem digit_runs_ordered_by_magnitude
    (fuel : nat) (a b : wstring) (i j : nat) :
  i < length a -> j < length b ->
  skip_seps (length a) a i < length a ->
  skip_seps (length b) b j < length b ->
  iswdigit (a !!! skip_seps (length a) a i) = true ->
  iswdigit (b !!! skip_seps (length b) b j) = true ->
  (magnitude (digit_run (drop (skip_seps (length a) a i) a)) < 2 ^ 64)%Z ->
  (magnitude (digit_run (drop (skip_seps (length b) b j) b)) < 2 ^ 64)%Z ->
  let ra := digit_run (drop (skip_seps (length a) a i) a) in
  let rb := digit_run (drop (skip_seps (length b) b j) b) in
  ((magnitude ra < magnitude rb)%Z \/
   (magnitude ra = magnitude rb /\ length ra < length rb) ->
   NaturalLess_loop (S fuel) a b i j = Some true /\
   NaturalLess_loop (S fuel) b a j i = Some false)
  /\ compare (L "2") (L "02") = Less
  /\ (forall std_sort,
        std_sort_contract std_sort ->
        rank std_sort [L "save02"; L "save2"] = [L "save2"; L "save02"]).
Proof.
  intros Hi Hj Hi' Hj' Da Db Ma Mb ra rb.
  split; [|split; [vm_compute; reflexivity | exact rank_save2_save02]].
  intros Hlt.
  rewrite (NaturalLess_loop_digits fuel a b i j) by assumption.
  rewrite (NaturalLess_loop_digits fuel b a j i) by assumption.
  cbv zeta.
  rewrite !run_value_magnitude by assumption. fold ra rb.
  destruct Hlt as [Hlt|[He Hl]].
  - destruct (Z.eqb_spec (magnitude ra) (magnitude rb)); [lia|].
    destruct (Z.eqb_spec (magnitude rb) (magnitude ra)); [lia|].
    cbn [negb]. split; f_equal; [apply Z.ltb_lt | apply Z.ltb_ge]; lia.
  - rewrite He, Z.eqb_refl. cbn [negb].
    destruct (Nat.eqb_spec (length ra) (length rb)); [lia|].
    destruct (Nat.eqb_spec (length rb) (length ra)); [lia|].
    cbn [negb]. split; f_equal; [apply Nat.ltb_lt | apply Nat.ltb_ge]; lia.
Qed.

Lemma digit_runs_ordered_by_magnitude_witness :
  NaturalLess_loop 1 (L "save_2") (L "save10") 4 4 = Some true /\
  NaturalLess_loop 1 (L "save10") (L "save_2") 4 4 = Some false.
Proof.
  apply (digit_runs_ordered_by_magnitude 0 (L "save_2") (L "save10") 4 4);
    try (vm_compute; lia); try (vm_compute; reflexivity).
  left. vm_compute. reflexivity.
Defined.

(** C1 as stated, for digit runs of any length, fails: the run
    ["18446744073709551616"] has the magnitude [2^64], larger than that
    of ["1"], and yet compares Less. *)
Lemma digit_runs_any_length_counterexample :
  ~ (forall (fuel : nat) (a b : wstring) (i j : nat),
      i < length a -> j < length b ->
      skip_seps (length a) a i < length a ->
      skip_seps (length b) b j < length b ->
      iswdigit (a !!! skip_seps (length a) a i) = true ->
      iswdigit (b !!! skip_seps (length b) b j) = true ->
      let ra := digit_run (drop (skip_seps (length a) a i) a) in
      let rb := digit_run (drop (skip_seps (length b) b j) b) in
      (magnitude ra < magnitude rb)%Z ->
      NaturalLess_loop (S fuel) a b i j = Some true).
Proof.
  intros H.
  specialize (H 0 (L "1") (L "18446744073709551616") 0 0).
  cbv zeta in H.
  assert (E : NaturalLess_loop 1 (L "1") (L "18446744073709551616") 0 0
              = Some false) by (vm_compute; reflexivity).
  rewrite E in H. discriminate H; try (vm_compute; lia);
    vm_compute; reflexivity.
Qed.

(** ** Reaching the end of a name *)

Lemma NaturalLess_loop_break (fuel : nat) (a b : wstring) (i j : nat) :
  i < length a -> j < length b ->
  skip_seps (length a) a i = length a \/
  skip_seps (length b) b j = length b ->
  NaturalLess_loop (S fuel) a b i j
  = Some (length a - skip_seps (length a) a i
          <? length b - skip_seps (length b) b j).
Proof.
  intros Hlt Hlt' Hend. cbn [NaturalLess_loop]. cbv zeta.
  rewrite (proj2 (Nat.ltb_lt _ _) Hlt), (proj2 (Nat.ltb_lt _ _) Hlt').
  cbn [andb negb].
  replace ((length a <=? skip_seps (length a) a i)
           || (length b <=? skip_seps (length b) b j)) with true;
    [reflexivity|].
  symmetry. apply orb_true_iff.
  destruct Hend as [E|E]; [left | right]; apply Nat.leb_le; lia.
Qed.

Lemma NaturalLess_loop_exit (fuel : nat) (a b : wstring) (i j : nat) :
  i <= length a -> j <= length b ->
  i = length a \/ j = length b ->
  NaturalLess_loop (S fuel) a b i j = Some (length a - i <? length b - j).
Proof.
  intros Hi Hj Hend. cbn [NaturalLess_loop]. cbv zeta.
  replace ((i <? length a) && (j <? length b)) with false; [reflexivity|].
  symmetry. apply andb_false_iff.
  destruct Hend as [E|E]; [left | right]; apply Nat.ltb_ge; lia.
Qed.

(** C9 (as amended): when a round of the loop starts with both cursors
    inside their names and skipping the separators brings at least one of
    them to the end, the name with fewer characters left after the
    skipping compares Less and equally many compare Equal: the comparison
    answers "fewer left in [a] than in [b]", and "fewer left in [b] than
    in [a]" when asked the other way round.  When a cursor is at the end
    of its name already at the test of the loop (in particular when both
    are), no separator is skipped: the characters left, separators among
    them, are counted as they are. *)
Theorem end_of_name_comparison (fuel : nat) (a b : wstring) (i j : nat) :
  i <= length a -> j <= length b ->
  (i < length a -> j < length b ->
   skip_seps (length a) a i = length a \/
   skip_seps (length b) b j = length b ->
   NaturalLess_loop (S fuel) a b i j
   = Some (length a - skip_seps (length a) a i
           <? length b - skip_seps (length b) b j)
   /\ NaturalLess_loop (S fuel) b a j i
      = Some (length b - skip_seps (length b) b j
              <? length a - skip_seps (length a) a i))
  /\ (i = length a \/ j = length b ->
      NaturalLess_loop (S fuel) a b i j = Some (length a - i <? length b - j)
      /\ NaturalLess_loop (S fuel) b a j i
         = Some (length b - j <? length a - i)).
Proof.
  intros Hi Hj. split.
  - intros Hlt Hlt' Hend. split; apply NaturalLess_loop_break;
      try assumption; tauto.
  - intros Hend. split; apply NaturalLess_loop_exit; try assumption; tauto.
Qed.

Lemma end_of_name_comparison_witness :
  NaturalLess_loop 1 (L "x_") (L "x__y") 1 1 = Some true
  /\ NaturalLess_loop 1 (L "x__y") (L "x_") 1 1 = Some false.
Proof.
  apply (proj1 (end_of_name_comparison 0 (L "x_") (L "x__y") 1 1
                  ltac:(vm_compute; lia) ltac:(vm_compute; lia)));
    [vm_compute; lia | vm_compute; lia | left; vm_compute; reflexivity].
Defined.

(** C9 as stated fails at the end of ["bf2savefile"] against
    ["bf2savefile_"]: after the separators nothing is left of either name,
    and yet the first compares Less. *)
Lemma end_of_name_counterexample :
  ~ (forall (fuel : nat) (a b : wstring) (i j : nat),
      i <= length a -> j <= length b ->
      skip_seps (length a) a i = length a \/
      skip_seps (length b) b j = length b ->
      NaturalLess_loop (S fuel) a b i j
      = Some (length a - skip_seps (length a) a i
              <? length b - skip_seps (length b) b j)).
Proof.
  intros H.
  specialize (H 0 (L "bf2savefile") (L "bf2savefile_") 11 11).
  assert (E : NaturalLess_loop 1 (L "bf2savefile") (L "bf2savefile_") 11 11
              = Some true) by (vm_compute; reflexivity).
  rewrite E in H.
  discriminate H; [vm_compute; lia | vm_compute; lia |].
  left. vm_compute. reflexivity.
Qed.

(** ** Ranking *)

(** C2 (as amended): whatever [std::sort] does within its contract, the
    ranked sequence is a rearrangement of the candidate names in which no
    name compares Less than an earlier one, and the empty input yields
    the empty output.  (The order of names that compare Equal is left to
    [std::sort].) *)
Theorem rank_sorted_permutation
    (std_sort : (list Z -> list Z -> bool) -> list (list Z) -> list (list Z))
    (names : list (list Z)) :
  std_sort_contract std_sort ->
  Permutation names (rank std_sort names)
  /\ sorted_by NaturalLess (rank std_sort names)
  /\ rank std_sort [] = [].
Proof.
  intros Hc.
  destruct (rank_within_contract std_sort names Hc) as [P S].
  split; [exact P|]. split; [exact S|].
  destruct (rank_within_contract std_sort [] Hc) as [P0 _].
  apply Permutation_nil. exact P0.
Qed.

Lemma rank_sorted_permutation_witness :
  rank front_insertion_sort [L "save2"; L "save10"; L "save1"]
  = [L "save1"; L "save2"; L "save10"]
  /\ sorted_by NaturalLess
       (rank front_insertion_sort [L "save2"; L "save10"; L "save1"]).
Proof.
  split; [vm_compute; reflexivity|].
  apply (rank_sorted_permutation front_insertion_sort
           [L "save2"; L "save10"; L "save1"] front_insertion_sort_contract).
Defined.

(** C2 as stated fails: a [std::sort] within its contract may exchange
    two names that compare Equal. *)
Lemma rank_stable_counterexample :
  ~ (forall std_sort names,
      std_sort_contract std_sort ->
      sorted_by NaturalLess (rank std_sort names)
      /\ stable_by NaturalLess names (rank std_sort names)
      /\ rank std_sort [] = []).
Proof.
  intros H.
  destruct (H front_insertion_sort
              [L "bf2savefile_10.sav"; L "bf2savefile-10.sav"]
              front_insertion_sort_contract) as (_ & St & _).
  specialize (St (L "bf2savefile_10.sav")).
  vm_compute in St. discriminate St.
Qed.

(** ** Scanning a folder *)

Lemma scan_entries_stopped (d : listing) (e : errc) (files : list wstring) :
  scan_entries d (Some e) files = files.
Proof. destruct d as [|[n x] d]; reflexivity. Qed.

Lemma scan_entries_candidates (d : listing) (files : list wstring) :
  scan_entries d None files = files ++ candidates (until_failure d).
Proof.
  revert files. induction d as [|[n e] d IH]; intros files.
  - cbn. rewrite app_nil_r. reflexivity.
  - destruct e; cbn [scan_entries is_regular_file until_failure].
    + unfold candidates. cbn [List.filter is_candidate snd fst].
      destruct (starts_with save_prefix n); cbn [negb List.map fst].
      * rewrite IH. rewrite <- app_assoc. reflexivity.
      * apply IH.
    + rewrite IH. reflexivity.
    + rewrite IH. reflexivity.
    + rewrite scan_entries_stopped. cbn. rewrite app_nil_r. reflexivity.
Qed.

Lemma until_failure_resolved (d : listing) :
  Forall resolved d -> until_failure d = d.
Proof.
  induction 1 as [|[n e] d Hr _ IH]; [reflexivity|].
  destruct e; cbn; try (f_equal; exact IH).
  exfalso. apply Hr. reflexivity.
Qed.

Lemma until_failure_app (d1 d2 : listing) :
  Forall resolved d1 -> until_failure (d1 ++ d2) = d1 ++ until_failure d2.
Proof.
  induction 1 as [|[n e] d Hr _ IH]; [reflexivity|].
  destruct e; cbn; try (f_equal; exact IH).
  exfalso. apply Hr. reflexivity.
Qed.

Lemma scan_listable (fs : gmap (list Z) node) (folder : wstring) (d : listing) :
  fs !! folder = Some (Directory true d) ->
  scan fs folder = candidates (until_failure d).
Proof.
  intros H. unfold scan, exists_dir, is_directory, directory_iterator.
  rewrite H. cbn. apply scan_entries_candidates.
Qed.

(** C8 (as amended): in a directory that can be listed, the scan returns
    exactly the direct children that are regular files and whose name
    begins with ["bf2savefile"], among the entries up to the first one
    whose file-type query fails; exactly those of the whole directory when
    no query fails.  For a path that does not exist, is not a directory or
    cannot be listed it returns the empty sequence, and no error. *)
Theorem scan_candidates (fs : gmap (list Z) node) (folder : wstring) :
  (forall d, fs !! folder = Some (Directory true d) ->
     scan fs folder = candidates (until_failure d)
     /\ (Forall resolved d -> scan fs folder = candidates d))
  /\ (fs !! folder = None \/ fs !! folder = Some NotDirectory
      \/ (exists d, fs !! folder = Some (Directory false d)) ->
      scan fs folder = []).
Proof.
  split.
  - intros d H. rewrite (scan_listable fs folder d H).
    split; [reflexivity|]. intros Hr. rewrite until_failure_resolved by exact Hr.
    reflexivity.
  - unfold scan, exists_dir, is_directory, directory_iterator.
    intros [H|[H|[d H]]]; rewrite H; reflexivity.
Qed.

Lemma scan_candidates_witness :
  scan {[ L "C:\saves" :=
            Directory true [(L "bf2savefile1.sav", RegularFile [1%Z]);
                            (L "notes.txt", RegularFile [2%Z]);
                            (L "bf2savefile2.sav", RegularFile [3%Z])] ]}
       (L "C:\saves")
  = [L "bf2savefile1.sav"; L "bf2savefile2.sav"].
Proof.
  refine (proj2 (proj1 (scan_candidates _ (L "C:\saves")) _
                   (lookup_singleton_eq _ _)) _).
  repeat constructor; discriminate.
Defined.

(** C8 as stated fails: a regular file with the prefix that is listed
    after an entry whose file-type query fails is not returned. *)
Lemma scan_candidates_counterexample :
  ~ (forall (fs : gmap (list Z) node) (folder : wstring) (d : listing),
      fs !! folder = Some (Directory true d) ->
      scan fs folder = candidates d).
Proof.
  intros H.
  specialize (H {[ L "C:\saves" :=
                     Directory true [(L "gone.lnk", Unresolved);
                                     (L "bf2savefile1.sav", RegularFile [1%Z])] ]}
                (L "C:\saves") _ (lookup_singleton_eq _ _)).
  rewrite (scan_listable _ _ _ (lookup_singleton_eq _ _)) in H.
  discriminate H.
Qed.

(** C10 (as amended): when ["bf2savefile.sav"] is a regular file of the
    directory and no entry listed before it has a failing file-type
    query, the scan returns it, and the dropdown filled from the scan
    offers it, so that the active file can be chosen as its own source. *)
Theorem active_file_is_candidate
    (std_sort : (list Z -> list Z -> bool) -> list (list Z) -> list (list Z))
    (fs : gmap (list Z) node) (folder : wstring) (d1 d2 : listing)
    (x : list Z) (dialog0 : dialog) :
  std_sort_contract std_sort ->
  fs !! folder
  = Some (Directory true (d1 ++ (active_name, RegularFile x) :: d2)) ->
  Forall resolved d1 ->
  In active_name (scan fs folder)
  /\ In active_name
       (combo_items (PopulateFileDropdown std_sort fs folder dialog0)).
Proof.
  intros Hc Hfs Hr.
  assert (Hin : In active_name (scan fs folder)).
  { rewrite (scan_listable fs folder _ Hfs).
    rewrite until_failure_app by exact Hr.
    unfold candidates. rewrite List.filter_app, List.map_app.
    apply in_or_app. right. cbn. left. reflexivity. }
  split; [exact Hin|].
  unfold PopulateFileDropdown, exists_dir, is_directory. rewrite Hfs.
  cbn [negb orb combo_items].
  unfold scan, exists_dir, is_directory in Hin. rewrite Hfs in Hin.
  cbn [negb orb] in Hin.
  destruct (rank_within_contract std_sort
              (scan_entries (directory_iterator fs folder) None []) Hc)
    as [P _].
  eapply Permutation_in; eassumption.
Qed.

Lemma active_file_is_candidate_witness :
  In active_name
     (scan {[ L "C:\saves" :=
                Directory true [(L "bf2savefile3.sav", RegularFile [1%Z]);
                                (active_name, RegularFile [2%Z])] ]}
           (L "C:\saves")).
Proof.
  refine (proj1 (active_file_is_candidate front_insertion_sort _ (L "C:\saves")
                   [(L "bf2savefile3.sav", RegularFile [1%Z])] [] [2%Z]
                   {| edit_dir := []; combo_items := []; combo_cursel := -1;
                      pin_checked := false; status := [] |}
                   front_insertion_sort_contract
                   (lookup_singleton_eq _ _) _)).
  repeat constructor; discriminate.
Defined.

(** C10 as stated fails: the active file is not returned when it is
    listed after an entry whose file-type query fails. *)
Lemma active_file_counterexample :
  ~ (forall (fs : gmap (list Z) node) (folder : wstring) (d : listing)
            (x : list Z),
      fs !! folder = Some (Directory true d) ->
      lookup_entry active_name d = Some (RegularFile x) ->
      In active_name (scan fs folder)).
Proof.
  intros H.
  specialize (H {[ L "C:\saves" :=
                     Directory true [(L "gone.lnk", Unresolved);
                                     (active_name, RegularFile [1%Z])] ]}
                (L "C:\saves") _ [1%Z] (lookup_singleton_eq _ _) eq_refl).
  rewrite (scan_listable _ _ _ (lookup_singleton_eq _ _)) in H.
  exact H.
Qed.

(** ** Promoting a file *)

Lemma lookup_entry_store (name : wstring) (e : entry) (d : listing) :
  lookup_entry name (store_entry name e d) = Some e.
Proof.
  induction d as [|[n e0] d IH]; cbn.
  - destruct (decide (name = name)); congruence.
  - destruct (decide (n = name)) as [E|E]; cbn.
    + destruct (decide (n = name)); congruence.
    + destruct (decide (n = name)); [congruence | exact IH].
Qed.

Lemma content_at_written (fs : gmap (list Z) node) (folder name : wstring)
    (r : bool) (d : listing) (x : list Z) :
  content_at (<[folder := Directory r (store_entry name (RegularFile x) d)]> fs)
             folder name = Some x.
Proof.
  unfold content_at, entry_at. rewrite lookup_insert_eq.
  rewrite lookup_entry_store. reflexivity.
Qed.

(** C3: when [directory/chosenName] is a file of content [X] and the
    chosen name is not empty, a promote that succeeds leaves
    [directory/bf2savefile.sav] with exactly the content [X], whatever it
    held before. *)
Theorem promote_replaces_content (os_ok : bool) (fs : gmap (list Z) node)
    (folder chosenName X : list Z) :
  chosenName <> [] ->
  content_at fs folder chosenName = Some X ->
  snd (promote os_ok fs folder chosenName) = None ->
  content_at (fst (promote os_ok fs folder chosenName)) folder active_name
  = Some X.
Proof.
  intros Hne Hsrc. unfold promote.
  destruct chosenName as [|c name]; [congruence|]. cbn [negb andb].
  unfold content_at, entry_at in Hsrc. unfold exists_file, entry_at, copy_file.
  destruct (fs !! folder) as [[r d|]|] eqn:Hfs; try discriminate Hsrc.
  destruct (lookup_entry (c :: name) d) as [[y| | |]|] eqn:Hl;
    try discriminate Hsrc.
  injection Hsrc as ->.
  destruct (lookup_entry active_name d) as [[y| | |]|];
    try (cbn; discriminate).
  - destruct (decide (c :: name = active_name)); [cbn; discriminate|].
    destruct os_ok; [|cbn; discriminate].
    intros _. cbn [fst]. apply content_at_written.
  - destruct os_ok; [|cbn; discriminate].
    intros _. cbn [fst]. apply content_at_written.
  - destruct os_ok; [|cbn; discriminate].
    intros _. cbn [fst]. apply content_at_written.
Qed.

Lemma promote_replaces_content_witness :
  content_at
    (fst (promote true
            {[ L "C:\saves" :=
                 Directory true [(L "bf2savefile3.sav", RegularFile [88%Z]);
                                 (active_name, RegularFile [89%Z; 89%Z])] ]}
            (L "C:\saves") (L "bf2savefile3.sav")))
    (L "C:\saves") active_name
  = Some [88%Z].
Proof.
  apply promote_replaces_content;
    [discriminate | vm_compute; reflexivity | vm_compute; reflexivity].
Defined.

(** C4: when the chosen name is not an entry of the directory, promote
    fails with [no_such_file_or_directory] (the source is missing) and
    changes nothing: in particular [directory/bf2savefile.sav] keeps its
    content. *)
Theorem promote_missing_source (os_ok : bool) (fs : gmap (list Z) node)
    (folder chosenName : list Z) :
  entry_at fs folder chosenName = None ->
  promote os_ok fs folder chosenName = (fs, Some no_such_file_or_directory)
  /\ content_at (fst (promote os_ok fs folder chosenName)) folder active_name
     = content_at fs folder active_name.
Proof.
  intros H.
  assert (E : promote os_ok fs folder chosenName
              = (fs, Some no_such_file_or_directory)).
  { unfold promote, exists_file. rewrite H.
    rewrite andb_false_r. reflexivity. }
  rewrite E. split; reflexivity.
Qed.

Lemma promote_missing_source_witness :
  promote true
    {[ L "C:\saves" := Directory true [(active_name, RegularFile [89%Z])] ]}
    (L "C:\saves") (L "bf2savefile3.sav")
  = ({[ L "C:\saves" := Directory true [(active_name, RegularFile [89%Z])] ]},
     Some no_such_file_or_directory).
Proof.
  apply promote_missing_source. vm_compute. reflexivity.
Defined.

(** ** Saving the configuration *)

(** C6 (as amended): [SaveConfig] returns nothing; when the fixed
    location cannot be opened for writing it leaves the file as it was and
    reports no failure.  What the dialog shows after a promote is decided
    by the copy alone: it is the same whether or not the configuration
    could be written. *)
Theorem save_failure_is_silent (os_ok : bool) (fs : gmap (list Z) node)
    (d : dialog) (c1 c2 : config_file) :
  dlg (DlgProc_IDOK os_ok {| disk := fs; config := c1; dlg := d |})
  = dlg (DlgProc_IDOK os_ok {| disk := fs; config := c2; dlg := d |})
  /\ (cfg_writable c1 = false ->
      forall folder file pinOnTop, SaveConfig folder file pinOnTop c1 = c1).
Proof.
  split.
  - unfold DlgProc_IDOK. cbn [disk dlg config].
    destruct (promote _ _ _ _). reflexivity.
  - intros Hw folder file pinOnTop. unfold SaveConfig. rewrite Hw. reflexivity.
Qed.

Lemma save_failure_is_silent_witness :
  SaveConfig (L "C:\saves") (L "bf2savefile3.sav") true
             {| cfg_bytes := Some (L "pin=0"); cfg_writable := false |}
  = {| cfg_bytes := Some (L "pin=0"); cfg_writable := false |}.
Proof.
  apply (proj2 (save_failure_is_silent true saves_here (dialog_on [] (-1))
                  {| cfg_bytes := Some (L "pin=0"); cfg_writable := false |}
                  {| cfg_bytes := None; cfg_writable := true |})).
  reflexivity.
Defined.

(** C6 as stated fails: with a configuration that cannot be written and a
    copy that succeeds, the dialog shows success and nothing reports the
    failed save. *)
Lemma save_failure_counterexample :
  ~ (forall (os_ok : bool) (w : world),
      cfg_writable (config w) = false ->
      status (dlg (DlgProc_IDOK os_ok w)) = L "Failed").
Proof.
  intros H.
  specialize (H true
                {| disk := saves_here;
                   config := {| cfg_bytes := None; cfg_writable := false |};
                   dlg := dialog_on [L "bf2savefile3.sav"] 0 |} eq_refl).
  vm_compute in H. discriminate H.
Qed.

(** ** The text encoding round-trips *)

Import Utf8.

Lemma encode_cons (c : Z) (r : wstring) :
  encode (c :: r) =
  if (c <? 128)%Z then c :: encode r
  else if (c <? 2048)%Z then
    (192 + c / 64)%Z :: (128 + c mod 64)%Z :: encode r
  else if is_high_surrogate c then
    match r with
    | d :: r' =>
        if is_low_surrogate d then
          let cp := (65536 + (c - 55296) * 1024 + (d - 56320))%Z in
          (240 + cp / 262144)%Z :: (128 + (cp / 4096) mod 64)%Z
            :: (128 + (cp / 64) mod 64)%Z :: (128 + cp mod 64)%Z
            :: encode r'
        else replacement_bytes ++ encode r
    | [] => replacement_bytes
    end
  else if is_low_surrogate c then replacement_bytes ++ encode r
  else
    (224 + c / 4096)%Z :: (128 + (c / 64) mod 64)%Z
      :: (128 + c mod 64)%Z :: encode r.
Proof. destruct r; reflexivity. Qed.

Lemma decode_cons (b0 : Z) (r : list Z) :
  decode (b0 :: r) =
  if (b0 <? 128)%Z then b0 :: decode r
  else if ((194 <=? b0) && (b0 <=? 223))%Z then
    match r with
    | b1 :: r1 =>
        if is_continuation b1
        then ((b0 - 192) * 64 + (b1 - 128))%Z :: decode r1
        else replacement_unit :: decode r
    | _ => replacement_unit :: decode r
    end
  else if ((224 <=? b0) && (b0 <=? 239))%Z then
    match r with
    | b1 :: b2 :: r2 =>
        let cp := ((b0 - 224) * 4096 + (b1 - 128) * 64 + (b2 - 128))%Z in
        if is_continuation b1 && is_continuation b2
           && (2048 <=? cp)%Z && negb ((55296 <=? cp) && (cp <=? 57343))%Z
        then cp :: decode r2
        else replacement_unit :: decode r
    | _ => replacement_unit :: decode r
    end
  else if ((240 <=? b0) && (b0 <=? 244))%Z then
    match r with
    | b1 :: b2 :: b3 :: r3 =>
        let cp := ((b0 - 240) * 262144 + (b1 - 128) * 4096
                   + (b2 - 128) * 64 + (b3 - 128))%Z in
        if is_continuation b1 && is_continuation b2 && is_continuation b3
           && (65536 <=? cp)%Z && (cp <=? 1114111)%Z
        then (55296 + (cp - 65536) / 1024)%Z
               :: (56320 + (cp - 65536) mod 1024)%Z :: decode r3
        else replacement_unit :: decode r
    | _ => replacement_unit :: decode r
    end
  else replacement_unit :: decode r.
Proof. destruct r as [|? [|? [|? ?]]]; reflexivity. Qed.

(** Settles the comparisons of the goal by linear arithmetic over the
    quotients and remainders. *)
Ltac settle_tests :=
  repeat match goal with
  | |- context [(?x <? ?y)%Z] =>
      destruct (Z.ltb_spec x y);
      try (exfalso; Z.div_mod_to_equations; lia)
  | |- context [(?x <=? ?y)%Z] =>
      destruct (Z.leb_spec x y);
      try (exfalso; Z.div_mod_to_equations; lia)
  end;
  cbn [andb orb negb].

Lemma decode_one_byte (c : Z) (t : list Z) :
  (c < 128)%Z -> decode (c :: t) = c :: decode t.
Proof.
  intros H. rewrite decode_cons. settle_tests; reflexivity.
Qed.

Lemma decode_two_bytes (c : Z) (t : list Z) :
  (128 <= c < 2048)%Z ->
  decode ((192 + c / 64)%Z :: (128 + c mod 64)%Z :: t) = c :: decode t.
Proof.
  intros H. rewrite decode_cons. unfold is_continuation.
  settle_tests; f_equal; Z.div_mod_to_equations; lia.
Qed.

Lemma decode_three_bytes (c : Z) (t : list Z) :
  (2048 <= c <= 65535)%Z -> ~ (55296 <= c <= 57343)%Z ->
  decode ((224 + c / 4096)%Z :: (128 + (c / 64) mod 64)%Z
            :: (128 + c mod 64)%Z :: t) = c :: decode t.
Proof.
  intros H Hs. rewrite decode_cons. cbv zeta.
  assert (E : ((224 + c / 4096 - 224) * 4096
               + (128 + (c / 64) mod 64 - 128) * 64
               + (128 + c mod 64 - 128))%Z = c)
    by (Z.div_mod_to_equations; lia).
  rewrite E. unfold is_continuation.
  settle_tests; reflexivity.
Qed.

Lemma decode_four_bytes (c d : Z) (t : list Z) :
  (55296 <= c <= 56319)%Z -> (56320 <= d <= 57343)%Z ->
  let cp := (65536 + (c - 55296) * 1024 + (d - 56320))%Z in
  decode ((240 + cp / 262144)%Z :: (128 + (cp / 4096) mod 64)%Z
            :: (128 + (cp / 64) mod 64)%Z :: (128 + cp mod 64)%Z :: t)
  = c :: d :: decode t.
Proof.
  intros Hc Hd cp. rewrite decode_cons. cbv zeta.
  assert (Hcp : (65536 <= cp <= 1114111)%Z) by (unfold cp; lia).
  assert (E : ((240 + cp / 262144 - 240) * 262144
               + (128 + (cp / 4096) mod 64 - 128) * 4096
               + (128 + (cp / 64) mod 64 - 128) * 64
               + (128 + cp mod 64 - 128))%Z = cp)
    by (Z.div_mod_to_equations; lia).
  rewrite E.
  assert (E1 : (55296 + (cp - 65536) / 1024)%Z = c)
    by (unfold cp; Z.div_mod_to_equations; lia).
  assert (E2 : (56320 + (cp - 65536) mod 1024)%Z = d)
    by (unfold cp; Z.div_mod_to_equations; lia).
  rewrite E1, E2. clearbody cp. unfold is_continuation.
  settle_tests; reflexivity.
Qed.

Lemma surrogate_ranges (c : Z) :
  (is_high_surrogate c = true <-> (55296 <= c <= 56319)%Z)
  /\ (is_low_surrogate c = true <-> (56320 <= c <= 57343)%Z).
Proof.
  unfold is_high_surrogate, is_low_surrogate.
  rewrite !andb_true_iff, !Z.leb_le. tauto.
Qed.

(** Induction along well-formed text: one unit of the basic plane, or one
    surrogate pair, at a time. *)
Lemma utf16_text_ind (P : wstring -> Prop) :
  P [] ->
  (forall c r,
     (1 <= c <= 65535)%Z -> ~ (55296 <= c <= 57343)%Z ->
     utf16_text r = true -> P r -> P (c :: r)) ->
  (forall c d r,
     (55296 <= c <= 56319)%Z -> (56320 <= d <= 57343)%Z ->
     utf16_text r = true -> P r -> P (c :: d :: r)) ->
  forall s, utf16_text s = true -> P s.
Proof.
  intros Hnil Hone Hpair s.
  remember (length s) as n eqn:Hn.
  revert s Hn. induction n as [n IH] using lt_wf_ind. intros s Hn Hs.
  destruct s as [|c r]; [exact Hnil|].
  cbn [utf16_text] in Hs.
  apply andb_true_iff in Hs as [Hrange Hs].
  apply andb_true_iff in Hrange as [Hlo Hhi].
  apply Z.leb_le in Hlo, Hhi.
  destruct (is_high_surrogate c) eqn:Hh.
  - apply surrogate_ranges in Hh.
    destruct r as [|d r]; [discriminate|].
    apply andb_true_iff in Hs as [Hd Hs]. apply surrogate_ranges in Hd.
    apply Hpair; try assumption.
    apply (IH (length r)); [subst n; cbn; lia | reflexivity | exact Hs].
  - apply andb_true_iff in Hs as [Hl Hs].
    apply negb_true_iff in Hl.
    apply Hone; try assumption; try lia.
    + intros Hsur.
      destruct (Z.le_gt_cases c 56319).
      * assert (is_high_surrogate c = true)
          by (apply surrogate_ranges; lia). congruence.
      * assert (is_low_surrogate c = true)
          by (apply surrogate_ranges; lia). congruence.
    + apply (IH (length r)); [subst n; cbn; lia | reflexivity | exact Hs].
Qed.

Lemma encode_basic (c : Z) (r : wstring) :
  (1 <= c <= 65535)%Z -> ~ (55296 <= c <= 57343)%Z ->
  encode (c :: r) =
  if (c <? 128)%Z then c :: encode r
  else if (c <? 2048)%Z then
    (192 + c / 64)%Z :: (128 + c mod 64)%Z :: encode r
  else (224 + c / 4096)%Z :: (128 + (c / 64) mod 64)%Z
         :: (128 + c mod 64)%Z :: encode r.
Proof.
  intros Hc Hs. rewrite encode_cons.
  destruct (Z.ltb_spec c 128); [reflexivity|].
  destruct (Z.ltb_spec c 2048); [reflexivity|].
  destruct (is_high_surrogate c) eqn:Hh.
  { apply surrogate_ranges in Hh. lia. }
  destruct (is_low_surrogate c) eqn:Hl.
  { apply surrogate_ranges in Hl. lia. }
  reflexivity.
Qed.

Lemma encode_pair (c d : Z) (r : wstring) :
  (55296 <= c <= 56319)%Z -> (56320 <= d <= 57343)%Z ->
  encode (c :: d :: r) =
  let cp := (65536 + (c - 55296) * 1024 + (d - 56320))%Z in
  (240 + cp / 262144)%Z :: (128 + (cp / 4096) mod 64)%Z
    :: (128 + (cp / 64) mod 64)%Z :: (128 + cp mod 64)%Z :: encode r.
Proof.
  intros Hc Hd. rewrite encode_cons.
  destruct (Z.ltb_spec c 128); [lia|].
  destruct (Z.ltb_spec c 2048); [lia|].
  rewrite (proj2 (proj1 (surrogate_ranges c)) Hc).
  rewrite (proj2 (proj2 (surrogate_ranges d)) Hd).
  reflexivity.
Qed.

Lemma decode_encode (s : wstring) :
  utf16_text s = true -> decode (encode s) = s.
Proof.
  revert s. apply utf16_text_ind;
    [ | intros c r Hc Hsur Hr IH | intros c d r Hc Hd Hr IH].
  - reflexivity.
  - rewrite encode_basic by assumption.
    destruct (Z.ltb_spec c 128).
    { rewrite decode_one_byte by lia. f_equal. exact IH. }
    destruct (Z.ltb_spec c 2048).
    { rewrite decode_two_bytes by lia. f_equal. exact IH. }
    rewrite decode_three_bytes by lia. f_equal. exact IH.
  - rewrite encode_pair by assumption. cbv zeta.
    rewrite decode_four_bytes by assumption. f_equal. f_equal. exact IH.
Qed.

(** No byte of the encoding is zero, and none is a line feed unless the
    text has one. *)
Lemma encode_bytes (s : wstring) :
  utf16_text s = true ->
  Forall (fun b => b <> 0%Z /\ (b = 10%Z -> In 10%Z s)) (encode s).
Proof.
  revert s. apply utf16_text_ind;
    [ | intros c r Hc Hsur Hr IH | intros c d r Hc Hd Hr IH].
  - constructor.
  - assert (IH' : Forall (fun b => b <> 0%Z /\ (b = 10%Z -> In 10%Z (c :: r)))
                         (encode r)).
    { eapply Forall_impl; [exact IH|]. cbn. intros b [H0 H1]. tauto. }
    rewrite encode_basic by assumption.
    destruct (Z.ltb_spec c 128); [|destruct (Z.ltb_spec c 2048)];
      repeat (constructor; [cbn; split; [|intros E; left];
                            Z.div_mod_to_equations; lia|]);
      exact IH'.
  - assert (IH' : Forall (fun b => b <> 0%Z
                                   /\ (b = 10%Z -> In 10%Z (c :: d :: r)))
                         (encode r)).
    { eapply Forall_impl; [exact IH|]. cbn. intros b [H0 H1]. tauto. }
    rewrite encode_pair by assumption. cbv zeta.
    repeat (constructor; [cbn; split; [|intros E; exfalso];
                          Z.div_mod_to_equations; lia|]).
    exact IH'.
Qed.

Lemma c_str_nonzero (s : list Z) :
  Forall (fun b => b <> 0%Z) s -> c_str s = s.
Proof.
  induction 1 as [|b s Hb _ IH]; [reflexivity|].
  cbn. destruct (Z.eqb_spec b 0); [contradiction|]. f_equal. exact IH.
Qed.

Lemma utf16_text_nonzero (s : wstring) :
  utf16_text s = true -> Forall (fun c => c <> 0%Z) s.
Proof.
  revert s. apply utf16_text_ind;
    [ | intros c r Hc Hsur Hr IH | intros c d r Hc Hd Hr IH];
    repeat constructor; try lia; exact IH.
Qed.

Lemma take_repeat_app_one (l : list Z) (z : Z) :
  take (length (repeat 0%Z (length l))) (l ++ [z]) = l.
Proof.
  rewrite repeat_length. rewrite take_app_le by lia.
  apply take_ge. lia.
Qed.

(** [ToUtf8] is the encoding of the text before the first zero, and
    [FromUtf8] the decoding of the bytes before the first zero. *)
Lemma ToUtf8_encode (s : wstring) : ToUtf8 s = encode (c_str s).
Proof.
  destruct s as [|c r]; [reflexivity|].
  unfold ToUtf8, WideCharToMultiByte. cbv zeta.
  set (e := encode (c_str (c :: r))).
  rewrite length_app. cbn [length].
  replace (length e + 1 =? 0) with false by (symmetry; apply Nat.eqb_neq; lia).
  replace (length e + 1 - 1) with (length e) by lia.
  destruct (Nat.ltb_spec 1 (length e + 1)).
  - apply take_repeat_app_one.
  - destruct e; [reflexivity | cbn in *; lia].
Qed.

Lemma FromUtf8_decode (s : list Z) : FromUtf8 s = decode (c_str s).
Proof.
  destruct s as [|c r]; [reflexivity|].
  unfold FromUtf8, MultiByteToWideChar. cbv zeta.
  set (e := decode (c_str (c :: r))).
  rewrite length_app. cbn [length].
  replace (length e + 1 =? 0) with false by (symmetry; apply Nat.eqb_neq; lia).
  replace (length e + 1 - 1) with (length e) by lia.
  destruct (Nat.ltb_spec 1 (length e + 1)).
  - apply take_repeat_app_one.
  - destruct e; [reflexivity | cbn in *; lia].
Qed.

Lemma FromUtf8_ToUtf8 (s : wstring) :
  utf16_text s = true -> FromUtf8 (ToUtf8 s) = s.
Proof.
  intros Hs. rewrite ToUtf8_encode, FromUtf8_decode.
  rewrite (c_str_nonzero s) by (apply utf16_text_nonzero; exact Hs).
  rewrite c_str_nonzero.
  - apply decode_encode. exact Hs.
  - eapply Forall_impl; [apply encode_bytes; exact Hs|].
    cbn. tauto.
Qed.

Lemma path_text_spec (s : wstring) :
  path_text s = true <-> utf16_text s = true /\ ~ In 10%Z s.
Proof.
  unfold path_text. rewrite andb_true_iff, forallb_forall.
  split; intros [H1 H2]; (split; [exact H1|]).
  - intros Hin. specialize (H2 _ Hin). rewrite Z.eqb_refl in H2. discriminate.
  - intros c Hin. destruct (Z.eqb_spec c 10); [subst; contradiction|].
    reflexivity.
Qed.

Lemma ToUtf8_one_line (s : wstring) :
  path_text s = true -> Forall (fun b => b <> 10%Z) (ToUtf8 s).
Proof.
  intros Hp. apply path_text_spec in Hp as [Hs Hn].
  rewrite ToUtf8_encode.
  rewrite (c_str_nonzero s) by (apply utf16_text_nonzero; exact Hs).
  eapply Forall_impl; [apply encode_bytes; exact Hs|].
  cbn. intros b [_ H] E. apply Hn, H, E.
Qed.

(** ** The configuration file round-trips *)

Lemma getlines_line (l rest line : list Z) :
  Forall (fun b => b <> 10%Z) l ->
  getlines (l ++ 10%Z :: rest) line = (line ++ l) :: getlines rest [].
Proof.
  intros H. revert line. induction H as [|b l Hb _ IH]; intros line.
  - cbn. rewrite app_nil_r. reflexivity.
  - cbn. destruct (Z.eqb_spec b 10); [contradiction|].
    rewrite IH. rewrite <- app_assoc. reflexivity.
Qed.

Lemma getlines_config_text (folder file : wstring) (pinOnTop : bool) :
  path_text folder = true -> path_text file = true ->
  getlines (config_text folder file pinOnTop) []
  = [L "directory=" ++ ToUtf8 folder;
     L "file=" ++ ToUtf8 file;
     L "pin=" ++ (if pinOnTop then L "1" else L "0")].
Proof.
  intros Hd Hf. unfold config_text.
  rewrite (app_assoc (L "directory=")).
  change ([10%Z] ++ ?x) with (10%Z :: x).
  rewrite getlines_line.
  2:{ apply Forall_app. split; [|apply ToUtf8_one_line; exact Hd].
      repeat constructor; discriminate. }
  rewrite (app_assoc (L "file=")).
  change ([10%Z] ++ ?x) with (10%Z :: x).
  rewrite getlines_line.
  2:{ apply Forall_app. split; [|apply ToUtf8_one_line; exact Hf].
      repeat constructor; discriminate. }
  rewrite (app_assoc (L "pin=")).
  rewrite getlines_line.
  2:{ destruct pinOnTop; repeat constructor; discriminate. }
  reflexivity.
Qed.

Lemma parse_line_directory (st : PersistedState) (e : list Z) :
  parse_line st (L "directory=" ++ e)
  = {| directory := FromUtf8 e; fileName := fileName st; pin := pin st |}.
Proof. reflexivity. Qed.

Lemma parse_line_file (st : PersistedState) (e : list Z) :
  parse_line st (L "file=" ++ e)
  = {| directory := directory st; fileName := FromUtf8 e; pin := pin st |}.
Proof. reflexivity. Qed.

Lemma parse_line_pin (st : PersistedState) (p : bool) :
  parse_line st (L "pin=" ++ (if p then L "1" else L "0"))
  = {| directory := directory st; fileName := fileName st; pin := p |}.
Proof. destruct p; reflexivity. Qed.

Lemma LoadConfig_SaveConfig (folder file : wstring) (p : bool)
    (cfg : config_file) :
  path_text folder = true -> path_text file = true ->
  cfg_writable cfg = true ->
  LoadConfig (SaveConfig folder file p cfg)
  = Some {| directory := folder; fileName := file; pin := p |}.
Proof.
  intros Hd Hf Hw. unfold SaveConfig. rewrite Hw.
  unfold LoadConfig. cbn [cfg_bytes]. f_equal.
  rewrite getlines_config_text by assumption.
  cbn [fold_left].
  rewrite parse_line_directory, parse_line_file, parse_line_pin.
  cbn [directory fileName pin].
  rewrite !FromUtf8_ToUtf8; [reflexivity | |].
  - apply path_text_spec in Hf. tauto.
  - apply path_text_spec in Hd. tauto.
Qed.

(** C7: for every state whose directory and file name are text of a path
    (well-formed UTF-16, the characters beyond the single-byte range and
    beyond the basic plane included, on one line), saving it to a
    writable configuration file and loading it again returns the same
    directory, file name and pin. *)
Theorem config_round_trip (st : PersistedState) (cfg : config_file) :
  path_text (directory st) = true ->
  path_text (fileName st) = true ->
  cfg_writable cfg = true ->
  LoadConfig (SaveConfig (directory st) (fileName st) (pin st) cfg) = Some st.
Proof.
  intros Hd Hf Hw. unfold SaveConfig. rewrite Hw.
  unfold LoadConfig. cbn [cfg_bytes]. f_equal.
  rewrite getlines_config_text by assumption.
  cbn [fold_left].
  rewrite parse_line_directory, parse_line_file, parse_line_pin.
  cbn [directory fileName pin].
  rewrite !FromUtf8_ToUtf8.
  - destruct st; reflexivity.
  - apply path_text_spec in Hf. tauto.
  - apply path_text_spec in Hd. tauto.
Qed.

Lemma config_round_trip_witness :
  LoadConfig
    (SaveConfig (L "C:\saves\" ++ [233; 26085; 55357; 56832]%Z)
                (L "bf2savefile1.sav") true
                {| cfg_bytes := None; cfg_writable := true |})
  = Some {| directory := L "C:\saves\" ++ [233; 26085; 55357; 56832]%Z;
            fileName := L "bf2savefile1.sav";
            pin := true |}.
Proof.
  apply (config_round_trip
           {| directory := L "C:\saves\" ++ [233; 26085; 55357; 56832]%Z;
              fileName := L "bf2savefile1.sav";
              pin := true |});
    vm_compute; reflexivity.
Defined.

(** ** The [IDOK] branch: copy, then save *)




(** * Further properties *)

(** ** The comparison as an ordering *)

(** X1: [NaturalLess] is a strict weak ordering, as [std::sort] requires of
    its comparison: no name is less than itself, less is transitive, and
    so is "neither is less than the other".  Hence the three-way reading
    is coherent: a name compares Equal to itself, and [a] compares Less
    than [b] exactly when [b] compares Greater than [a]. *)
Theorem NaturalLess_orders_names :
  strict_weak_order NaturalLess
  /\ (forall a, compare a a = Equal)
  /\ (forall a b, compare a b = Less <-> compare b a = Greater).
Proof.
  pose proof NaturalLess_strict_weak_order as Hswo.
  split; [exact Hswo|]. split.
  - intros a. unfold compare. rewrite (swo_irrefl _ Hswo a). reflexivity.
  - intros a b. unfold compare.
    destruct (NaturalLess a b) eqn:Hab.
    + rewrite (swo_asym _ Hswo a b Hab). tauto.
    + destruct (NaturalLess b a); split; discriminate.
Qed.

(** ** The loop ends *)

Lemma less_suffix_total_min (fuel : nat) (sa sb : wstring) :
  Nat.min (length sa) (length sb) < fuel ->
  exists r, less_suffix fuel sa sb = Some r.
Proof.
  revert sa sb. induction fuel as [|fuel IH]; intros sa sb Hf; [lia|].
  destruct sa as [|x sa], sb as [|y sb]; cbn [less_suffix]; eauto.
  cbv zeta.
  pose proof (drop_seps_length (x :: sa)) as Ha.
  pose proof (drop_seps_length (y :: sb)) as Hb.
  destruct (drop_seps (x :: sa)) as [|ca ra]; eauto.
  destruct (drop_seps (y :: sb)) as [|cb rb]; eauto.
  cbn [length] in *.
  destruct (iswdigit ca) eqn:Da; cbn [andb].
  - destruct (iswdigit cb) eqn:Db.
    + destruct (negb _); eauto. destruct (negb _); eauto.
      apply IH. cbn [after_run]. rewrite Da, Db.
      pose proof (after_run_length ra). pose proof (after_run_length rb). lia.
    + destruct (negb _); eauto. apply IH. lia.
  - destruct (negb _); eauto. apply IH. lia.
Qed.

(** X2: the loop of [NaturalLess] ends: started at cursors [i] and [j] it
    returns a result within one round more than the shorter of the two
    remainders is long, and the result is the same for every larger
    number of rounds allowed. *)
Theorem NaturalLess_loop_ends (a b : wstring) (i j : nat) :
  i <= length a -> j <= length b ->
  exists r,
    forall fuel,
      Nat.min (length a - i) (length b - j) < fuel ->
      NaturalLess_loop fuel a b i j = Some r.
Proof.
  intros Hi Hj.
  exists (key_ltb (sort_key (drop i a)) (sort_key (drop j b))).
  intros fuel Hf. rewrite NaturalLess_loop_suffix by assumption.
  destruct (less_suffix_total_min fuel (drop i a) (drop j b)) as [r Hr].
  { rewrite !length_drop. exact Hf. }
  rewrite Hr. f_equal. apply (less_suffix_key _ _ _ _ Hr).
Qed.

Lemma NaturalLess_loop_ends_witness :
  exists r,
    forall fuel,
      Nat.min (length (L "save10") - 4) (length (L "save2") - 4) < fuel ->
      NaturalLess_loop fuel (L "save10") (L "save2") 4 4 = Some r.
Proof.
  apply (NaturalLess_loop_ends (L "save10") (L "save2") 4 4);
    vm_compute; lia.
Defined.

(** ** What the comparison does not see *)

Lemma towlower_fixes_sep (c : Z) : IsSep (towlower c) = IsSep c.
Proof.
  unfold towlower, IsSep.
  destruct (Z.leb_spec 65 c); destruct (Z.leb_spec c 90); cbn [andb];
    try reflexivity.
  repeat match goal with
         | |- context [(?x =? ?y)%Z] => destruct (Z.eqb_spec x y); try lia
         end;
    reflexivity.
Qed.

Lemma towlower_fixes_digit (c : Z) : iswdigit c = true -> towlower c = c.
Proof.
  intros H. apply iswdigit_range in H. unfold towlower.
  destruct (Z.leb_spec 65 c); destruct (Z.leb_spec c 90); cbn [andb];
    try reflexivity. lia.
Qed.

Lemma IsSep_not_digit (c : Z) : IsSep c = true -> iswdigit c = false.
Proof.
  unfold IsSep, iswdigit. intros H.
  repeat match type of H with
         | context [(?x =? ?y)%Z] => destruct (Z.eqb_spec x y); try subst c
         end; try reflexivity; discriminate.
Qed.

Lemma same_class_sep (x y : Z) : same_class x y -> IsSep x = IsSep y.
Proof.
  intros [H|[Hx Hy]]; [|congruence].
  rewrite <- (towlower_fixes_sep x), <- (towlower_fixes_sep y), H.
  reflexivity.
Qed.

Lemma same_class_digit (x y : Z) : same_class x y -> iswdigit x = iswdigit y.
Proof.
  intros [H|[Hx Hy]].
  - rewrite <- (towlower_digit x), <- (towlower_digit y), H. reflexivity.
  - rewrite (IsSep_not_digit x Hx), (IsSep_not_digit y Hy). reflexivity.
Qed.

Lemma same_class_digit_eq (x y : Z) :
  same_class x y -> iswdigit x = true -> x = y.
Proof.
  intros Hc Hx. pose proof Hx as Hy. rewrite (same_class_digit x y Hc) in Hy.
  destruct Hc as [H|[Hs _]].
  - rewrite (towlower_fixes_digit x Hx), (towlower_fixes_digit y Hy) in H.
    exact H.
  - rewrite (IsSep_not_digit x Hs) in Hx. discriminate.
Qed.

Lemma same_class_fold (x y : Z) :
  same_class x y -> IsSep x = false -> towlower x = towlower y.
Proof. intros [H|[Hs _]] Hx; [exact H | congruence]. Qed.

Lemma same_class_drop_seps (s s' : wstring) :
  Forall2 same_class s s' -> Forall2 same_class (drop_seps s) (drop_seps s').
Proof.
  induction 1 as [|x y s s' Hxy Hs IH]; cbn; [constructor|].
  rewrite <- (same_class_sep x y Hxy).
  destruct (IsSep x); [exact IH | constructor; assumption].
Qed.

Lemma same_class_digit_run (s s' : wstring) :
  Forall2 same_class s s' -> digit_run s = digit_run s'.
Proof.
  induction 1 as [|x y s s' Hxy Hs IH]; cbn; [reflexivity|].
  rewrite <- (same_class_digit x y Hxy).
  destruct (iswdigit x) eqn:Hx; [|reflexivity].
  rewrite (same_class_digit_eq x y Hxy Hx), IH. reflexivity.
Qed.

Lemma same_class_after_run (s s' : wstring) :
  Forall2 same_class s s' -> Forall2 same_class (after_run s) (after_run s').
Proof.
  induction 1 as [|x y s s' Hxy Hs IH]; cbn; [constructor|].
  rewrite <- (same_class_digit x y Hxy).
  destruct (iswdigit x); [exact IH | constructor; assumption].
Qed.

Lemma drop_seps_head (t : wstring) (d : Z) (u : wstring) :
  drop_seps t = d :: u -> IsSep d = false.
Proof.
  induction t as [|z t IH]; cbn; [discriminate|].
  destruct (IsSep z) eqn:Ez; [exact IH|].
  intros [= <- _]. exact Ez.
Qed.

Lemma same_class_key_fuel (fuel : nat) (s s' : wstring) :
  Forall2 same_class s s' -> key_fuel fuel s = key_fuel fuel s'.
Proof.
  revert s s'. induction fuel as [|fuel IH]; intros s s' H; [reflexivity|].
  pose proof (same_class_drop_seps s s' H) as Hd.
  destruct H as [|x y s s' Hxy Hs]; [reflexivity|].
  cbn [key_fuel].
  remember (drop_seps (x :: s)) as t eqn:Et.
  remember (drop_seps (y :: s')) as t' eqn:Et'.
  destruct Hd as [|c c' r r' Hc Hr]; [reflexivity|].
  rewrite <- (same_class_digit c c' Hc).
  destruct (iswdigit c) eqn:Dc.
  - unfold number_token.
    rewrite (same_class_digit_run (c :: r) (c' :: r'))
      by (constructor; assumption).
    f_equal. apply IH. apply same_class_after_run. constructor; assumption.
  - symmetry in Et. apply drop_seps_head in Et.
    rewrite (same_class_fold c c' Hc Et). f_equal. apply IH. exact Hr.
Qed.

Lemma same_class_sort_key (s s' : wstring) :
  Forall2 same_class s s' -> sort_key s = sort_key s'.
Proof.
  intros H. unfold sort_key. rewrite (Forall2_length _ _ _ H).
  apply same_class_key_fuel. exact H.
Qed.

Lemma same_class_NaturalLess (a a' b b' : wstring) :
  Forall2 same_class a a' -> Forall2 same_class b b' ->
  NaturalLess a b = NaturalLess a' b'.
Proof.
  intros Ha Hb. rewrite !NaturalLess_key.
  rewrite (same_class_sort_key a a' Ha), (same_class_sort_key b b' Hb).
  reflexivity.
Qed.

Lemma same_class_refl (s : wstring) : Forall2 same_class s s.
Proof. induction s; constructor; [left; reflexivity | assumption]. Qed.

Lemma same_class_compare (a a' : wstring) :
  Forall2 same_class a a' -> compare a a' = Equal.
Proof.
  intros Ha. unfold compare.
  rewrite (same_class_NaturalLess a a' a' a' Ha (same_class_refl a')).
  rewrite (same_class_NaturalLess a' a' a a' (same_class_refl a') Ha).
  rewrite (swo_irrefl _ NaturalLess_strict_weak_order). reflexivity.
Qed.

(** X3: the comparison ignores the case of the letters [A]..[Z]: names
    that are equal after case folding, character by character, compare
    alike against every name, and Equal to each other. *)
Theorem NaturalLess_ignores_case (a a' b : wstring) :
  Forall2 (fun x y => towlower x = towlower y) a a' ->
  NaturalLess a b = NaturalLess a' b
  /\ NaturalLess b a = NaturalLess b a'
  /\ compare a a' = Equal.
Proof.
  intros H.
  assert (Ha : Forall2 same_class a a').
  { eapply Forall2_impl; [exact H|]. intros x y E. left. exact E. }
  pose proof (same_class_refl b) as Hb.
  split; [apply same_class_NaturalLess; assumption|].
  split; [apply same_class_NaturalLess; assumption|].
  apply same_class_compare. exact Ha.
Qed.

Lemma NaturalLess_ignores_case_witness :
  NaturalLess (L "Save2") (L "save10") = NaturalLess (L "sAVE2") (L "save10")
  /\ NaturalLess (L "save10") (L "Save2") = NaturalLess (L "save10") (L "sAVE2")
  /\ compare (L "Save2") (L "sAVE2") = Equal.
Proof.
  apply NaturalLess_ignores_case.
  repeat constructor.
Defined.

(** X4: the comparison does not tell one separator from another: names
    that differ only in which separator (space, underscore, hyphen,
    period) stands at a place compare alike against every name, and Equal
    to each other. *)
Theorem NaturalLess_ignores_separator_kind (a a' b : wstring) :
  Forall2 (fun x y => x = y \/ (IsSep x = true /\ IsSep y = true)) a a' ->
  NaturalLess a b = NaturalLess a' b
  /\ NaturalLess b a = NaturalLess b a'
  /\ compare a a' = Equal.
Proof.
  intros H.
  assert (Ha : Forall2 same_class a a').
  { eapply Forall2_impl; [exact H|].
    intros x y [E|E]; [left; congruence | right; exact E]. }
  pose proof (same_class_refl b) as Hb.
  split; [apply same_class_NaturalLess; assumption|].
  split; [apply same_class_NaturalLess; assumption|].
  apply same_class_compare. exact Ha.
Qed.

Lemma NaturalLess_ignores_separator_kind_witness :
  compare (L "bf2savefile_10.sav") (L "bf2savefile-10 sav") = Equal.
Proof.
  apply (NaturalLess_ignores_separator_kind
           (L "bf2savefile_10.sav") (L "bf2savefile-10 sav") []).
  repeat constructor; first [left; reflexivity | right; split; reflexivity].
Defined.

(** X5: separators in front of a name are skipped: a separator put in
    front of a name that is not empty changes no comparison of that name,
    on either side. *)
Theorem NaturalLess_skips_leading_separator (c : wchar_t) (a b : wstring) :
  IsSep c = true -> a <> [] ->
  NaturalLess (c :: a) b = NaturalLess a b
  /\ NaturalLess b (c :: a) = NaturalLess b a.
Proof.
  intros Hc Hne. destruct a as [|x a]; [congruence|].
  assert (E : sort_key (c :: x :: a) = sort_key (x :: a)).
  { rewrite (sort_key_cons c (x :: a)), (sort_key_cons x a).
    cbn [drop_seps]. rewrite Hc. reflexivity. }
  rewrite !NaturalLess_key, E. split; reflexivity.
Qed.

Lemma NaturalLess_skips_leading_separator_witness :
  NaturalLess (L "_save2") (L "save10") = NaturalLess (L "save2") (L "save10")
  /\ NaturalLess (L "save10") (L "_save2") = NaturalLess (L "save10") (L "save2").
Proof.
  apply (NaturalLess_skips_leading_separator 95%Z (L "save2") (L "save10"));
    [reflexivity | discriminate].
Defined.

(** ** The scan and the dropdown *)

Lemma until_failure_In (d : listing) (ne : list Z * entry) :
  In ne (until_failure d) -> In ne d.
Proof.
  induction d as [|[n e] d IH]; [intros []|].
  destruct e; cbn [until_failure]; intros [H|H];
    first [left; exact H | right; apply IH; exact H | destruct H].
Qed.

Lemma candidates_sublist (d : listing) :
  candidates (until_failure d) `sublist_of` List.map fst d.
Proof.
  induction d as [|[n e] d IH]; [constructor|].
  destruct e; cbn [until_failure List.map fst];
    try (unfold candidates; cbn [List.filter is_candidate snd fst];
         first [destruct (starts_with save_prefix n); cbn [List.map fst];
                constructor; exact IH
               | constructor; exact IH]).
  apply sublist_nil_l.
Qed.

Lemma scan_In (fs : gmap (list Z) node) (folder name : wstring) :
  In name (scan fs folder) ->
  starts_with save_prefix name = true
  /\ exists d x,
       fs !! folder = Some (Directory true d)
       /\ In (name, RegularFile x) d.
Proof.
  intros Hin.
  destruct (fs !! folder) as [[[|] d|]|] eqn:Hfs;
    try (unfold scan, exists_dir, is_directory, directory_iterator in Hin;
         rewrite Hfs in Hin; cbn in Hin; contradiction).
  rewrite (scan_listable fs folder d Hfs) in Hin.
  unfold candidates in Hin. apply in_map_iff in Hin as [[n e] [En Hf]].
  apply filter_In in Hf as [Hd Hc]. cbn in En. subst n.
  unfold is_candidate in Hc. cbn [snd fst] in Hc.
  destruct e; try discriminate Hc.
  split; [exact Hc|]. exists d, content. split; [reflexivity|].
  apply until_failure_In. exact Hd.
Qed.

(** X6: the scan returns nothing but what it is to return: every name it
    returns begins with ["bf2savefile"] and is a regular file listed by
    the directory, and the names come in the order of the listing, each
    at most as often as it is listed. *)
Theorem scan_sound (fs : gmap (list Z) node) (folder : wstring) :
  (forall name,
     In name (scan fs folder) ->
     starts_with save_prefix name = true
     /\ exists d x,
          fs !! folder = Some (Directory true d)
          /\ In (name, RegularFile x) d)
  /\ (forall d,
        fs !! folder = Some (Directory true d) ->
        scan fs folder `sublist_of` List.map fst d).
Proof.
  split.
  - intros name. apply scan_In.
  - intros d Hfs. rewrite (scan_listable fs folder d Hfs).
    apply candidates_sublist.
Qed.

Lemma scan_sound_witness :
  starts_with save_prefix (L "bf2savefile3.sav") = true
  /\ exists d x,
       saves_here !! L "C:\saves" = Some (Directory true d)
       /\ In (L "bf2savefile3.sav", RegularFile x) d.
Proof.
  apply (proj1 (scan_sound saves_here (L "C:\saves"))).
  vm_compute. left. reflexivity.
Defined.

Lemma PopulateFileDropdown_items
    (std_sort : (list Z -> list Z -> bool) -> list (list Z) -> list (list Z))
    (fs : gmap (list Z) node) (folder : wstring) (d : dialog) :
  std_sort_contract std_sort ->
  combo_items (PopulateFileDropdown std_sort fs folder d)
  = rank std_sort (scan fs folder).
Proof.
  intros Hc. unfold PopulateFileDropdown, scan.
  destruct (negb (exists_dir fs folder) || negb (is_directory fs folder));
    [|reflexivity].
  cbn [combo_items]. symmetry.
  destruct (rank_within_contract std_sort [] Hc) as [P _].
  apply Permutation_nil. exact P.
Qed.

Lemma PopulateFileDropdown_cursel
    (std_sort : (list Z -> list Z -> bool) -> list (list Z) -> list (list Z))
    (fs : gmap (list Z) node) (folder : wstring) (d : dialog) :
  combo_cursel (PopulateFileDropdown std_sort fs folder d)
  = match combo_items (PopulateFileDropdown std_sort fs folder d) with
    | [] => (-1)%Z
    | _ :: _ => 0%Z
    end.
Proof.
  unfold PopulateFileDropdown.
  destruct (negb (exists_dir fs folder) || negb (is_directory fs folder));
    reflexivity.
Qed.

Lemma sorted_by_head_least (l : list (list Z)) :
  sorted_by NaturalLess l ->
  Forall (fun n => NaturalLess n (hd [] l) = false) l.
Proof.
  intros H. destruct H as [|x l Hs Hx]; [constructor|].
  cbn [hd]. constructor; [|exact Hx].
  apply (swo_irrefl _ NaturalLess_strict_weak_order).
Qed.

(** X7: what [PopulateFileDropdown] leaves in the dropdown, whatever
    [std::sort] does within its contract: the strings are the names the
    scan returns, rearranged so that none compares Less than an earlier
    one, each of them begins with ["bf2savefile"]; the first string is
    selected when there is one (and no name offered compares Less than
    it), and nothing is selected otherwise; the other controls keep their
    values. *)
Theorem dropdown_after_populate
    (std_sort : (list Z -> list Z -> bool) -> list (list Z) -> list (list Z))
    (fs : gmap (list Z) node) (folder : wstring) (d : dialog) :
  std_sort_contract std_sort ->
  let d' := PopulateFileDropdown std_sort fs folder d in
  Permutation (scan fs folder) (combo_items d')
  /\ sorted_by NaturalLess (combo_items d')
  /\ Forall (fun n => starts_with save_prefix n = true) (combo_items d')
  /\ combo_cursel d' = match combo_items d' with [] => (-1)%Z | _ :: _ => 0%Z end
  /\ IDOK_selectedFile d' = hd [] (combo_items d')
  /\ Forall (fun n => NaturalLess n (IDOK_selectedFile d') = false)
            (combo_items d')
  /\ (edit_dir d', pin_checked d', status d')
     = (edit_dir d, pin_checked d, status d).
Proof.
  intros Hc d'.
  pose proof (PopulateFileDropdown_items std_sort fs folder d Hc) as Hi.
  pose proof (PopulateFileDropdown_cursel std_sort fs folder d) as Hs.
  fold d' in Hi, Hs.
  destruct (rank_within_contract std_sort (scan fs folder) Hc) as [P S].
  rewrite <- Hi in P, S.
  assert (Hsel : IDOK_selectedFile d' = hd [] (combo_items d')).
  { unfold IDOK_selectedFile. rewrite Hs.
    destruct (combo_items d'); reflexivity. }
  split; [exact P|]. split; [exact S|]. split.
  { apply List.Forall_forall. intros n Hn.
    apply (Permutation_in _ (Permutation_sym P)) in Hn.
    apply (scan_In fs folder n Hn). }
  split; [exact Hs|]. split; [exact Hsel|]. split.
  { rewrite Hsel. apply sorted_by_head_least. exact S. }
  unfold d', PopulateFileDropdown.
  destruct (negb (exists_dir fs folder) || negb (is_directory fs folder));
    reflexivity.
Qed.

Lemma dropdown_after_populate_witness :
  combo_items (PopulateFileDropdown front_insertion_sort saves_here
                 (L "C:\saves") (dialog_on [L "stale"] 0))
  = [L "bf2savefile3.sav"; L "bf2savefile.sav"]
  /\ Forall (fun n => starts_with save_prefix n = true)
       (combo_items (PopulateFileDropdown front_insertion_sort saves_here
                       (L "C:\saves") (dialog_on [L "stale"] 0))).
Proof.
  split; [vm_compute; reflexivity|].
  apply (dropdown_after_populate front_insertion_sort saves_here
           (L "C:\saves") (dialog_on [L "stale"] 0)
           front_insertion_sort_contract).
Defined.

(** ** The text encoding *)

Lemma encode_byte_range (s : wstring) :
  utf16_text s = true -> Forall (fun b => (1 <= b <= 255)%Z) (encode s).
Proof.
  revert s. apply utf16_text_ind;
    [ | intros c r Hc Hsur Hr IH | intros c d r Hc Hd Hr IH].
  - constructor.
  - rewrite encode_basic by assumption.
    destruct (Z.ltb_spec c 128); [|destruct (Z.ltb_spec c 2048)];
      repeat (constructor; [Z.div_mod_to_equations; lia|]);
      exact IH.
  - rewrite encode_pair by assumption. cbv zeta.
    repeat (constructor; [Z.div_mod_to_equations; lia|]).
    exact IH.
Qed.

(** X8: [ToUtf8] and [FromUtf8] round-trip every well-formed text (code
    units in the 16-bit range, every surrogate paired, no zero):
    decoding the encoding gives the text back, and the encoding consists
    of bytes none of which is zero. *)
Theorem FromUtf8_ToUtf8_round_trip (s : wstring) :
  utf16_text s = true ->
  FromUtf8 (ToUtf8 s) = s
  /\ Forall (fun b => (1 <= b <= 255)%Z) (ToUtf8 s).
Proof.
  intros Hs. split; [apply FromUtf8_ToUtf8; exact Hs|].
  rewrite ToUtf8_encode.
  rewrite (c_str_nonzero s) by (apply utf16_text_nonzero; exact Hs).
  apply encode_byte_range. exact Hs.
Qed.

Lemma FromUtf8_ToUtf8_round_trip_witness :
  FromUtf8 (ToUtf8 [233; 26085; 55357; 56832]%Z) = [233; 26085; 55357; 56832]%Z
  /\ Forall (fun b => (1 <= b <= 255)%Z) (ToUtf8 [233; 26085; 55357; 56832]%Z).
Proof.
  apply FromUtf8_ToUtf8_round_trip. vm_compute. reflexivity.
Defined.

Lemma c_str_app_zero (s t : list Z) :
  Forall (fun b => b <> 0%Z) s -> c_str (s ++ 0%Z :: t) = s.
Proof.
  induction 1 as [|b s Hb _ IH]; [reflexivity|].
  cbn. destruct (Z.eqb_spec b 0); [contradiction|]. f_equal. exact IH.
Qed.

(** X9: both helpers stop at the first zero of their argument (they pass
    [c_str()] with length [-1]): whatever follows a zero code unit, or a
    zero byte, is dropped. *)
Theorem conversions_stop_at_zero (s t : list Z) :
  Forall (fun b => b <> 0%Z) s ->
  ToUtf8 (s ++ 0%Z :: t) = ToUtf8 s
  /\ FromUtf8 (s ++ 0%Z :: t) = FromUtf8 s.
Proof.
  intros Hs. rewrite !ToUtf8_encode, !FromUtf8_decode.
  rewrite (c_str_app_zero s t Hs), (c_str_nonzero s Hs). split; reflexivity.
Qed.

Lemma conversions_stop_at_zero_witness :
  ToUtf8 (L "C:\a" ++ 0%Z :: L "junk") = ToUtf8 (L "C:\a")
  /\ FromUtf8 (L "C:\a" ++ 0%Z :: L "junk") = FromUtf8 (L "C:\a").
Proof.
  apply conversions_stop_at_zero. repeat constructor; discriminate.
Defined.

(** ** Reading the configuration *)

Lemma starts_with_other_key (x y : Z) (p q l : list Z) :
  x <> y ->
  starts_with (x :: p) l = true -> starts_with (y :: q) l = false.
Proof.
  intros Hxy. destruct l as [|c l]; [discriminate|]. cbn.
  destruct (Z.eqb_spec x c); [|discriminate]. intros _.
  destruct (Z.eqb_spec y c); [congruence | reflexivity].
Qed.

Lemma last_line_with_snoc (key : list Z) (ls : list (list Z)) (l : list Z) :
  last_line_with key (ls ++ [l])
  = if starts_with key l then Some l else last_line_with key ls.
Proof.
  unfold last_line_with. rewrite rev_app_distr. reflexivity.
Qed.

Lemma fold_parse_line (ls : list (list Z)) (st : PersistedState) :
  fold_left parse_line ls st = loaded_from ls st.
Proof.
  induction ls as [|l ls IH] using rev_ind.
  - destruct st; reflexivity.
  - rewrite fold_left_app. cbn [fold_left]. rewrite IH.
    unfold loaded_from at 2. rewrite !last_line_with_snoc.
    unfold parse_line.
    destruct (starts_with (L "directory=") l) eqn:Ed.
    { assert (Ef : starts_with (L "file=") l = false)
        by exact (starts_with_other_key 100 102 (L "irectory=") (L "ile=") l
                    ltac:(lia) Ed).
      assert (Ep : starts_with (L "pin=") l = false)
        by exact (starts_with_other_key 100 112 (L "irectory=") (L "in=") l
                    ltac:(lia) Ed).
      rewrite Ef, Ep. reflexivity. }
    destruct (starts_with (L "file=") l) eqn:Ef.
    { assert (Ep : starts_with (L "pin=") l = false)
        by exact (starts_with_other_key 102 112 (L "ile=") (L "in=") l
                    ltac:(lia) Ef).
      rewrite Ep. reflexivity. }
    destruct (starts_with (L "pin=") l) eqn:Ep; reflexivity.
Qed.

Lemma LoadConfig_loaded_from (cfg : config_file) (bytes : list Z) :
  cfg_bytes cfg = Some bytes ->
  LoadConfig cfg
  = Some (loaded_from (getlines bytes [])
            {| directory := []; fileName := []; pin := false |}).
Proof.
  intros H. unfold LoadConfig. rewrite H. f_equal. apply fold_parse_line.
Qed.

(** X10: what [LoadConfig] reads: nothing from a file that cannot be
    opened; otherwise each of directory, file name and pin is taken from
    the last line that begins with its key ([directory=], [file=],
    [pin=]), lines with no such key are ignored, and a field whose key is
    on no line is empty, or false.  The pin is set only by a [1] right
    after [pin=]. *)
Theorem LoadConfig_last_line_wins (cfg : config_file) :
  (cfg_bytes cfg = None -> LoadConfig cfg = None)
  /\ (forall bytes,
        cfg_bytes cfg = Some bytes ->
        let ls := getlines bytes [] in
        LoadConfig cfg
        = Some {| directory := match last_line_with (L "directory=") ls with
                               | Some l => FromUtf8 (drop 10 l)
                               | None => []
                               end;
                  fileName := match last_line_with (L "file=") ls with
                              | Some l => FromUtf8 (drop 5 l)
                              | None => []
                              end;
                  pin := match last_line_with (L "pin=") ls with
                         | Some l => (4 <? length l) && (l !!! 4%nat =? 49)%Z
                         | None => false
                         end |}).
Proof.
  split.
  - intros H. unfold LoadConfig. rewrite H. reflexivity.
  - intros bytes H ls. rewrite (LoadConfig_loaded_from cfg bytes H).
    reflexivity.
Qed.

Lemma LoadConfig_last_line_wins_witness :
  LoadConfig
    {| cfg_bytes := Some (L "file=a" ++ [10%Z] ++ L "colour=red" ++ [10%Z]
                          ++ L "pin=yes" ++ [10%Z] ++ L "file=b");
       cfg_writable := false |}
  = Some {| directory := []; fileName := L "b"; pin := false |}.
Proof.
  rewrite (proj2 (LoadConfig_last_line_wins
                    {| cfg_bytes := Some (L "file=a" ++ [10%Z] ++ L "colour=red"
                                          ++ [10%Z] ++ L "pin=yes" ++ [10%Z]
                                          ++ L "file=b");
                       cfg_writable := false |}) _ eq_refl).
  vm_compute. reflexivity.
Defined.

(** ** Saving, and loading what was saved *)

(** X11: [SaveConfig] replaces the file, it merges nothing: a save after
    another save leaves what it would have left alone, whatever the first
    one wrote, and loading then returns the values of the second save. *)
Theorem SaveConfig_overwrites (folder1 file1 folder2 file2 : wstring)
    (p1 p2 : bool) (cfg : config_file) :
  SaveConfig folder2 file2 p2 (SaveConfig folder1 file1 p1 cfg)
  = SaveConfig folder2 file2 p2 cfg
  /\ (path_text folder2 = true -> path_text file2 = true ->
      cfg_writable cfg = true ->
      LoadConfig (SaveConfig folder2 file2 p2 (SaveConfig folder1 file1 p1 cfg))
      = Some {| directory := folder2; fileName := file2; pin := p2 |}).
Proof.
  assert (E : SaveConfig folder2 file2 p2 (SaveConfig folder1 file1 p1 cfg)
              = SaveConfig folder2 file2 p2 cfg).
  { unfold SaveConfig. destruct (cfg_writable cfg) eqn:Hw; cbn [cfg_writable].
    - reflexivity.
    - rewrite Hw. reflexivity. }
  split; [exact E|].
  intros Hd Hf Hw. rewrite E. apply LoadConfig_SaveConfig; assumption.
Qed.

Lemma SaveConfig_overwrites_witness :
  LoadConfig (SaveConfig (L "D:\b") (L "bf2savefile2.sav") false
                (SaveConfig (L "C:\a") (L "bf2savefile1.sav") true
                   {| cfg_bytes := None; cfg_writable := true |}))
  = Some {| directory := L "D:\b"; fileName := L "bf2savefile2.sav";
            pin := false |}.
Proof.
  apply (proj2 (SaveConfig_overwrites (L "C:\a") (L "bf2savefile1.sav")
                  (L "D:\b") (L "bf2savefile2.sav") true false
                  {| cfg_bytes := None; cfg_writable := true |}));
    reflexivity.
Defined.

(** X17: the state survives a restart also after a failed promote: when
    the configuration file is writable and the folder and the selected
    name are text of a path, [LoadConfig] after the [IDOK] branch returns
    the folder, the selected name and the pin state of the dialog,
    whether the copy succeeded or not. *)
Theorem IDOK_then_LoadConfig (os_ok : bool) (w : world) :
  cfg_writable (config w) = true ->
  path_text (IDOK_folder (dlg w)) = true ->
  path_text (IDOK_selectedFile (dlg w)) = true ->
  LoadConfig (config (DlgProc_IDOK os_ok w))
  = Some {| directory := IDOK_folder (dlg w);
            fileName := IDOK_selectedFile (dlg w);
            pin := pin_checked (dlg w) |}.
Proof.
  intros Hw Hd Hf.
  assert (E : config (DlgProc_IDOK os_ok w)
              = SaveConfig (IDOK_folder (dlg w)) (IDOK_selectedFile (dlg w))
                           (pin_checked (dlg w)) (config w)).
  { unfold DlgProc_IDOK. destruct (promote _ _ _ _). reflexivity. }
  rewrite E. apply LoadConfig_SaveConfig; assumption.
Qed.

Lemma IDOK_then_LoadConfig_witness :
  LoadConfig (config (DlgProc_IDOK false
                {| disk := saves_here;
                   config := {| cfg_bytes := None; cfg_writable := true |};
                   dlg := dialog_on [L "bf2savefile3.sav"] 0 |}))
  = Some {| directory := L "C:\saves"; fileName := L "bf2savefile3.sav";
            pin := true |}.
Proof.
  apply (IDOK_then_LoadConfig false
           {| disk := saves_here;
              config := {| cfg_bytes := None; cfg_writable := true |};
              dlg := dialog_on [L "bf2savefile3.sav"] 0 |});
    reflexivity.
Defined.

(** ** What loading never returns *)

Lemma decode_small (v : Z) (s : list Z) :
  (v < 128)%Z -> In v (decode s) -> In v s.
Proof.
  intros Hv. remember (length s) as n eqn:Hn. revert s Hn.
  induction n as [n IH] using lt_wf_ind. intros s Hn.
  destruct s as [|b0 r]; [intros []|].
  assert (IHr : forall t, length t < n -> In v (decode t) -> In v t).
  { intros t Ht. apply (IH (length t) Ht t eq_refl). }
  cbn [length] in Hn.
  rewrite decode_cons. unfold is_continuation, replacement_unit.
  destruct (Z.ltb_spec b0 128) as [Hb|Hb].
  { intros [E|H]; [left; exact E | right; apply IHr; [lia | exact H]]. }
  assert (Hrepl : In v (65533%Z :: decode r) -> In v (b0 :: r)).
  { intros [E|H]; [lia | right; apply IHr; [lia | exact H]]. }
  destruct ((194 <=? b0) && (b0 <=? 223))%Z eqn:T2.
  { apply andb_true_iff in T2 as [T2a T2b]. apply Z.leb_le in T2a, T2b.
    destruct r as [|b1 r1]; [exact Hrepl|].
    destruct ((128 <=? b1) && (b1 <=? 191))%Z eqn:C1; [|exact Hrepl].
    apply andb_true_iff in C1 as [C1a C1b]. apply Z.leb_le in C1a, C1b.
    intros [E|H]; [lia|].
    right. right. apply IHr; [cbn [length] in *; lia | exact H]. }
  destruct ((224 <=? b0) && (b0 <=? 239))%Z eqn:T3.
  { destruct r as [|b1 [|b2 r2]]; try exact Hrepl.
    cbv zeta.
    destruct (_ && _ && (2048 <=? _)%Z && _) eqn:C; [|exact Hrepl].
    apply andb_true_iff in C as [C _]. apply andb_true_iff in C as [_ C].
    apply Z.leb_le in C.
    intros [E|H]; [lia|].
    right. right. right. apply IHr; [cbn [length] in *; lia | exact H]. }
  destruct ((240 <=? b0) && (b0 <=? 244))%Z eqn:T4; [|exact Hrepl].
  destruct r as [|b1 [|b2 [|b3 r3]]]; try exact Hrepl.
  cbv zeta.
  destruct (_ && _ && _ && (65536 <=? _)%Z && _) eqn:C; [|exact Hrepl].
  apply andb_true_iff in C as [C _]. apply andb_true_iff in C as [_ C].
  apply Z.leb_le in C.
  intros [E|[E|H]]; [Z.div_mod_to_equations; lia
                    | Z.div_mod_to_equations; lia |].
  right. right. right. right. apply IHr; [cbn [length] in *; lia | exact H].
Qed.

Lemma c_str_In (v : Z) (s : list Z) : In v (c_str s) -> In v s /\ v <> 0%Z.
Proof.
  induction s as [|b s IH]; [intros []|]. cbn.
  destruct (Z.eqb_spec b 0); [intros []|].
  intros [E|H]; [subst; tauto|]. destruct (IH H). tauto.
Qed.

Lemma FromUtf8_In_small (v : Z) (s : list Z) :
  (v < 128)%Z -> In v (FromUtf8 s) -> In v s /\ v <> 0%Z.
Proof.
  intros Hv H. rewrite FromUtf8_decode in H.
  apply c_str_In. apply decode_small; assumption.
Qed.

Lemma getlines_one_line (s line : list Z) :
  ~ In 10%Z line -> Forall (fun l => ~ In 10%Z l) (getlines s line).
Proof.
  revert line. induction s as [|c s IH]; intros line Hl; cbn.
  - destruct line; repeat constructor. exact Hl.
  - destruct (Z.eqb_spec c 10).
    + constructor; [exact Hl|]. apply IH. intros [].
    + apply IH. intros H. apply in_app_or in H as [H|[H|[]]]; [tauto|].
      congruence.
Qed.

Lemma last_line_with_In (key : list Z) (ls : list (list Z)) (l : list Z) :
  last_line_with key ls = Some l -> In l ls.
Proof.
  unfold last_line_with. intros H. apply find_some in H as [H _].
  apply in_rev. exact H.
Qed.

Lemma In_drop (v : Z) (n : nat) (l : list Z) : In v (drop n l) -> In v l.
Proof.
  intros H. rewrite <- (take_drop n l). apply in_or_app. right. exact H.
Qed.

Lemma loaded_value_clean (key l : list Z) (n : nat) (ls : list (list Z))
    (v : Z) :
  Forall (fun l => ~ In 10%Z l) ls ->
  last_line_with key ls = Some l ->
  v = 0%Z \/ v = 10%Z ->
  ~ In v (FromUtf8 (drop n l)).
Proof.
  intros Hls Hl Hv Hin.
  apply FromUtf8_In_small in Hin; [|lia]. destruct Hin as [Hin Hnz].
  destruct Hv as [->| ->]; [congruence|].
  apply In_drop in Hin.
  apply last_line_with_In in Hl.
  rewrite List.Forall_forall in Hls. exact (Hls l Hl Hin).
Qed.

(** X12: what [LoadConfig] never returns: neither the directory nor the
    file name it reads contains a line feed or a zero, whatever the file
    holds.  So a directory or a file name with a line feed in it is not
    restored by loading what [SaveConfig] wrote for it. *)
Theorem LoadConfig_returns_one_line (cfg : config_file) (st : PersistedState) :
  LoadConfig cfg = Some st ->
  (forall v, v = 0%Z \/ v = 10%Z ->
     ~ In v (directory st) /\ ~ In v (fileName st))
  /\ (forall folder file p cfg0,
        cfg = SaveConfig folder file p cfg0 ->
        (In 10%Z folder -> directory st <> folder)
        /\ (In 10%Z file -> fileName st <> file)).
Proof.
  intros H.
  assert (Hclean : forall v, v = 0%Z \/ v = 10%Z ->
                     ~ In v (directory st) /\ ~ In v (fileName st)).
  { intros v Hv.
    destruct (cfg_bytes cfg) as [bytes|] eqn:Hb;
      [|unfold LoadConfig in H; rewrite Hb in H; discriminate].
    rewrite (LoadConfig_loaded_from cfg bytes Hb) in H.
    injection H as <-.
    pose proof (getlines_one_line bytes [] (fun H => H)) as Hls.
    unfold loaded_from. cbn [directory fileName].
    split.
    - destruct (last_line_with (L "directory=") _) as [l|] eqn:E;
        [|intros []].
      apply (loaded_value_clean _ _ _ _ _ Hls E Hv).
    - destruct (last_line_with (L "file=") _) as [l|] eqn:E;
        [|intros []].
      apply (loaded_value_clean _ _ _ _ _ Hls E Hv). }
  split; [exact Hclean|].
  intros folder file p cfg0 _.
  destruct (Hclean 10%Z (or_intror eq_refl)) as [Hd Hf].
  split; intros Hin E; [apply Hd | apply Hf]; rewrite E; exact Hin.
Qed.

Lemma LoadConfig_returns_one_line_witness :
  match LoadConfig (SaveConfig (L "C:\a" ++ [10%Z] ++ L "b") (L "f") true
                      {| cfg_bytes := None; cfg_writable := true |}) with
  | Some st => directory st <> L "C:\a" ++ [10%Z] ++ L "b"
  | None => True
  end.
Proof.
  destruct (LoadConfig _) as [st|] eqn:H; [|exact I].
  apply (proj1 (proj2 (LoadConfig_returns_one_line _ st H) _ _ _ _ eq_refl)).
  vm_compute. tauto.
Defined.

(** ** Promoting: when it succeeds and what it touches *)

Lemma lookup_entry_store_ne (n name : wstring) (e : entry) (d : listing) :
  n <> name -> lookup_entry n (store_entry name e d) = lookup_entry n d.
Proof.
  intros Hne. induction d as [|[m e0] d IH]; cbn.
  - destruct (decide (name = n)); [congruence | reflexivity].
  - destruct (decide (m = name)) as [E|E]; cbn.
    + destruct (decide (m = n)); [congruence | reflexivity].
    + destruct (decide (m = n)); [reflexivity | exact IH].
Qed.

Lemma store_entry_twice (name : wstring) (e e' : entry) (d : listing) :
  store_entry name e (store_entry name e' d) = store_entry name e d.
Proof.
  induction d as [|[m e0] d IH]; cbn.
  - destruct (decide (name = name)); [reflexivity | congruence].
  - destruct (decide (m = name)) as [E|E]; cbn.
    + destruct (decide (m = name)); [reflexivity | congruence].
    + destruct (decide (m = name)); [congruence | f_equal; exact IH].
Qed.

Lemma destination_free_writable (fs : gmap (list Z) node) (folder : wstring) :
  destination_free fs folder -> destination_writable fs folder.
Proof.
  intros [H|[y H]]; unfold destination_writable; rewrite H;
    split; discriminate.
Qed.

(** The outcome of [promote], case by case. *)
Lemma promote_cases (os_ok : bool) (fs : gmap (list Z) node)
    (folder name : wstring) :
  (exists r d x,
     fs !! folder = Some (Directory r d)
     /\ lookup_entry name d = Some (RegularFile x)
     /\ os_ok = true /\ name <> [] /\ name <> active_name
     /\ destination_writable fs folder
     /\ promote os_ok fs folder name
        = (<[folder := Directory r (store_entry active_name (RegularFile x) d)]> fs,
           None))
  \/ ((exists e, promote os_ok fs folder name = (fs, Some e))
      /\ ~ (os_ok = true /\ name <> [] /\ name <> active_name
            /\ (exists x, content_at fs folder name = Some x)
            /\ destination_writable fs folder)).
Proof.
  unfold promote, exists_file, copy_file, destination_writable, content_at,
    entry_at.
  destruct name as [|c name].
  { right. split; [eexists; reflexivity|]. intros (_ & H & _). congruence. }
  cbn [negb andb].
  destruct (fs !! folder) as [[r d|]|] eqn:Hfs;
    try (right; split; [eexists; reflexivity|];
         intros (_ & _ & _ & [x Hx] & _); discriminate).
  destruct (lookup_entry (c :: name) d) as [[x| | |]|] eqn:Hsrc;
    try (right; split; [eexists; reflexivity|];
         intros (_ & _ & _ & [x' Hx] & _); discriminate).
  destruct (lookup_entry active_name d) as [[y| | |]|] eqn:Hdst.
  - destruct (decide (c :: name = active_name)) as [E|E].
    { right. split; [eexists; reflexivity|]. intros (_ & _ & H & _).
      contradiction. }
    destruct os_ok.
    + left. exists r, d, x. repeat split; try assumption; discriminate.
    + right. split; [eexists; reflexivity|]. intros (H & _). discriminate.
  - right. split; [eexists; reflexivity|].
    intros (_ & _ & _ & _ & H & _). congruence.
  - right. split; [eexists; reflexivity|].
    intros (_ & _ & _ & _ & _ & H). congruence.
  - assert (E : c :: name <> active_name) by (intros E; congruence).
    destruct os_ok.
    + left. exists r, d, x. repeat split; try assumption; discriminate.
    + right. split; [eexists; reflexivity|]. intros (H & _). discriminate.
  - assert (E : c :: name <> active_name) by (intros E; congruence).
    destruct os_ok.
    + left. exists r, d, x. repeat split; try assumption; discriminate.
    + right. split; [eexists; reflexivity|]. intros (H & _). discriminate.
Qed.





(** X15: the [IDOK] branch fails and leaves the disk as it was when no
    name is selected, when the selected name is the one of the active
    file itself, and when the selected name is no regular file of the
    folder, whatever the operating system would do. *)
Theorem IDOK_fails_before_the_copy (os_ok : bool) (w : world) :
  IDOK_selectedFile (dlg w) = []
  \/ IDOK_selectedFile (dlg w) = active_name
  \/ content_at (disk w) (IDOK_folder (dlg w)) (IDOK_selectedFile (dlg w))
     = None ->
  disk (DlgProc_IDOK os_ok w) = disk w
  /\ status (dlg (DlgProc_IDOK os_ok w)) = L "Failed".
Proof.
  intros H. unfold DlgProc_IDOK.
  destruct (promote_cases os_ok (disk w) (IDOK_folder (dlg w))
              (IDOK_selectedFile (dlg w)))
    as [(r & d & x & Hfs & Hsrc & _ & Hn & Ha & _ & E)|[[e E] _]].
  - exfalso. destruct H as [H|[H|H]]; [congruence | congruence |].
    unfold content_at, entry_at in H. rewrite Hfs, Hsrc in H. discriminate.
  - rewrite E. split; reflexivity.
Qed.

Lemma IDOK_fails_before_the_copy_witness :
  disk (DlgProc_IDOK true
          {| disk := saves_here;
             config := {| cfg_bytes := None; cfg_writable := true |};
             dlg := dialog_on [L "bf2savefile3.sav"; active_name] 1 |})
  = saves_here
  /\ status (dlg (DlgProc_IDOK true
          {| disk := saves_here;
             config := {| cfg_bytes := None; cfg_writable := true |};
             dlg := dialog_on [L "bf2savefile3.sav"; active_name] 1 |}))
     = L "Failed".
Proof.
  apply (IDOK_fails_before_the_copy true
           {| disk := saves_here;
              config := {| cfg_bytes := None; cfg_writable := true |};
              dlg := dialog_on [L "bf2savefile3.sav"; active_name] 1 |}).
  right. left. reflexivity.
Defined.

(** X16: promoting is idempotent: after a promote that succeeded, the
    same promote succeeds again and leaves the disk as the first one left
    it. *)
Theorem promote_idempotent (fs : gmap (list Z) node) (folder name : wstring) :
  snd (promote true fs folder name) = None ->
  promote true (fst (promote true fs folder name)) folder name
  = (fst (promote true fs folder name), None).
Proof.
  destruct (promote_cases true fs folder name)
    as [(r & d & x & Hfs & Hsrc & _ & Hn & Ha & _ & E)|[[e E] _]];
    rewrite E; cbn [fst snd]; [intros _ | discriminate].
  set (d' := store_entry active_name (RegularFile x) d).
  set (fs' := <[folder := Directory r d']> fs).
  assert (Hfs' : fs' !! folder = Some (Directory r d'))
    by apply lookup_insert_eq.
  assert (Hsrc' : lookup_entry name d' = Some (RegularFile x)).
  { unfold d'. rewrite lookup_entry_store_ne by exact Ha. exact Hsrc. }
  assert (Hdst' : lookup_entry active_name d' = Some (RegularFile x))
    by apply lookup_entry_store.
  unfold promote, exists_file, copy_file, entry_at.
  destruct name as [|c name]; [congruence|]. cbn [negb andb].
  rewrite Hfs', Hsrc', Hdst'.
  destruct (decide (c :: name = active_name)); [contradiction|].
  f_equal. unfold fs', d'.
  rewrite insert_insert_eq, store_entry_twice. reflexivity.
Qed.

Lemma promote_idempotent_witness :
  promote true (fst (promote true saves_here (L "C:\saves")
                       (L "bf2savefile3.sav")))
          (L "C:\saves") (L "bf2savefile3.sav")
  = (fst (promote true saves_here (L "C:\saves") (L "bf2savefile3.sav")),
     None).
Proof.
  apply promote_idempotent. vm_compute. reflexivity.
Defined.

(** ** From the scan to the copy *)

Lemma lookup_entry_NoDup (name : wstring) (e : entry) (d : listing) :
  List.NoDup (List.map fst d) -> In (name, e) d ->
  lookup_entry name d = Some e.
Proof.
  induction d as [|[n e0] d IH]; [intros _ []|].
  cbn [List.map fst]. intros Hnd Hin. apply List.NoDup_cons_iff in Hnd as [Hn Hnd].
  cbn [lookup_entry]. destruct (decide (n = name)) as [->|Hne].
  - destruct Hin as [E|Hin]; [congruence|].
    exfalso. apply Hn. apply (in_map fst) in Hin. exact Hin.
  - destruct Hin as [E|Hin]; [congruence|]. apply IH; assumption.
Qed.

Lemma starts_with_nonempty (p s : list Z) :
  p <> [] -> starts_with p s = true -> s <> [].
Proof. destruct p; [congruence|]. destruct s; [discriminate | congruence]. Qed.

Lemma PopulateFileDropdown_keeps
    (std_sort : (list Z -> list Z -> bool) -> list (list Z) -> list (list Z))
    (fs : gmap (list Z) node) (folder : wstring) (d : dialog) :
  edit_dir (PopulateFileDropdown std_sort fs folder d) = edit_dir d
  /\ pin_checked (PopulateFileDropdown std_sort fs folder d) = pin_checked d.
Proof.
  unfold PopulateFileDropdown.
  destruct (negb (exists_dir fs folder) || negb (is_directory fs folder));
    split; reflexivity.
Qed.

Lemma selected_after_populate
    (std_sort : (list Z -> list Z -> bool) -> list (list Z) -> list (list Z))
    (fs : gmap (list Z) node) (folder : wstring) (d : dialog) :
  std_sort_contract std_sort ->
  let sel := IDOK_selectedFile (PopulateFileDropdown std_sort fs folder d) in
  (scan fs folder = [] -> sel = [])
  /\ (scan fs folder <> [] -> In sel (scan fs folder)).
Proof.
  intros Hc sel.
  pose proof (PopulateFileDropdown_items std_sort fs folder d Hc) as Hi.
  pose proof (PopulateFileDropdown_cursel std_sort fs folder d) as Hs.
  destruct (rank_within_contract std_sort (scan fs folder) Hc) as [P _].
  rewrite <- Hi in P.
  assert (Hsel : sel = hd [] (combo_items
                                (PopulateFileDropdown std_sort fs folder d))).
  { unfold sel, IDOK_selectedFile. rewrite Hs.
    destruct (combo_items _); reflexivity. }
  split.
  - intros E. rewrite E in P. apply Permutation_nil in P.
    rewrite Hsel, P. reflexivity.
  - intros Hne. apply (Permutation_in _ (Permutation_sym P)).
    rewrite Hsel.
    destruct (combo_items _) as [|n items]; [|left; reflexivity].
    apply Permutation_sym, Permutation_nil in P. contradiction.
Qed.

(** X18: from the scan to the copy.  After the directory field changed
    and the dropdown was filled, in a folder that can be listed and lists
    each name once, the [IDOK] branch finds the preselected name to be a
    regular file of the folder; if that name is not the one of the active
    file itself, no entry other than a regular file has the name of the
    active file, and the operating system carries the copy out, success
    is shown and [bf2savefile.sav] has the content of the preselected
    file.  When the scan returned nothing, nothing is selected, failure
    is shown and the disk is as before. *)
Theorem EN_CHANGE_then_IDOK
    (std_sort : (list Z -> list Z -> bool) -> list (list Z) -> list (list Z))
    (os_ok : bool) (w : world) (d : listing) :
  std_sort_contract std_sort ->
  disk w !! IDOK_folder (dlg w) = Some (Directory true d) ->
  List.NoDup (List.map fst d) ->
  let folder := IDOK_folder (dlg w) in
  let w1 := DlgProc_EN_CHANGE std_sort w in
  let sel := IDOK_selectedFile (dlg w1) in
  let w2 := DlgProc_IDOK os_ok w1 in
  (scan (disk w) folder = [] ->
   sel = [] /\ status (dlg w2) = L "Failed" /\ disk w2 = disk w)
  /\ (scan (disk w) folder <> [] ->
      exists x,
        content_at (disk w) folder sel = Some x
        /\ (os_ok = true -> sel <> active_name ->
            destination_free (disk w) folder ->
            status (dlg w2) = L "Success!"
            /\ content_at (disk w2) folder active_name = Some x)).
Proof.
  intros Hc Hfs Hnd folder w1 sel w2.
  assert (Hfolder : IDOK_folder (dlg w1) = folder).
  { unfold w1, DlgProc_EN_CHANGE, IDOK_folder. cbn [dlg].
    rewrite (proj1 (PopulateFileDropdown_keeps _ _ _ _)). reflexivity. }
  assert (Hdisk : disk w1 = disk w) by reflexivity.
  destruct (selected_after_populate std_sort (disk w) folder (dlg w) Hc)
    as [Hnone Hsome].
  change (IDOK_selectedFile
            (PopulateFileDropdown std_sort (disk w) folder (dlg w)))
    with sel in Hnone, Hsome.
  split.
  - intros E. specialize (Hnone E). split; [exact Hnone|].
    unfold w2, DlgProc_IDOK. fold sel. rewrite Hfolder, Hdisk, Hnone.
    cbn. split; reflexivity.
  - intros Hne. specialize (Hsome Hne).
    destruct (scan_In (disk w) folder sel Hsome)
      as (Hpre & d' & x & Hfs' & Hin).
    assert (d' = d) by (unfold folder in Hfs'; congruence). subst d'.
    pose proof (lookup_entry_NoDup sel _ d Hnd Hin) as Hl.
    exists x. split.
    { unfold content_at, entry_at. fold folder in Hfs. rewrite Hfs, Hl.
      reflexivity. }
    intros Hos Ha Hfree.
    unfold w2, DlgProc_IDOK. fold sel. rewrite Hfolder, Hdisk.
    destruct (promote_cases os_ok (disk w) folder sel)
      as [(r & d0 & x0 & Hfs0 & Hsrc0 & _ & _ & _ & _ & E)|[_ Hnot]].
    + rewrite E. cbn [dlg status disk].
      fold folder in Hfs. assert (r = true /\ d0 = d) as [-> ->]
        by (split; congruence).
      assert (x0 = x) by congruence. subst x0.
      split; [reflexivity | apply content_at_written].
    + exfalso. apply Hnot.
      split; [exact Hos|]. split.
      { apply (starts_with_nonempty save_prefix); [discriminate | exact Hpre]. }
      split; [exact Ha|]. split.
      { exists x. unfold content_at, entry_at. fold folder in Hfs.
        rewrite Hfs, Hl. reflexivity. }
      apply destination_free_writable. exact Hfree.
Qed.

Lemma EN_CHANGE_then_IDOK_witness :
  content_at
    (disk (DlgProc_IDOK true
             (DlgProc_EN_CHANGE front_insertion_sort
                {| disk := saves_here;
                   config := {| cfg_bytes := None; cfg_writable := true |};
                   dlg := dialog_on [] (-1) |})))
    (L "C:\saves") active_name
  = Some [88%Z].
Proof.
  destruct (proj2 (EN_CHANGE_then_IDOK front_insertion_sort true
                     {| disk := saves_here;
                        config := {| cfg_bytes := None; cfg_writable := true |};
                        dlg := dialog_on [] (-1) |}
                     [(L "bf2savefile3.sav", RegularFile [88%Z]);
                      (active_name, RegularFile [89%Z])]
                     front_insertion_sort_contract
                     (lookup_singleton_eq _ _)
                     ltac:(repeat constructor; cbn; intuition discriminate))
                  ltac:(vm_compute; discriminate)) as (x & Hx & H).
  assert (x = [88%Z]) by (vm_compute in Hx; congruence). subst x.
  apply H; [reflexivity | vm_compute; discriminate |].
  right. exists [89%Z]. vm_compute. reflexivity.
Defined.

(** ** A common beginning *)

Lemma sort_key_drop_seps (s : wstring) :
  drop_seps s <> [] -> sort_key s = sort_key (drop_seps s).
Proof.
  destruct s as [|h s]; [reflexivity|]. intros Hne.
  rewrite (sort_key_cons h s).
  destruct (drop_seps (h :: s)) as [|d r] eqn:E; [congruence|].
  rewrite (sort_key_cons d r). cbn [drop_seps].
  rewrite (drop_seps_head _ _ _ E). reflexivity.
Qed.

Lemma digit_run_nil_after (x : wstring) : digit_run x = [] -> after_run x = x.
Proof.
  destruct x as [|h x]; [reflexivity|]. cbn.
  destruct (iswdigit h); [discriminate | reflexivity].
Qed.

(** The key of a name cut after a character [c] that is no separator,
    where no digit run crosses the cut: [c] is no digit, or no digit
    follows it. *)
Section Cut.
Variable c : Z.
Variable x : wstring.
Hypothesis c_not_sep : IsSep c = false.
Hypothesis no_run_across : iswdigit c = false \/ digit_run x = [].

Lemma drop_seps_cut (p : wstring) :
  drop_seps (p ++ c :: x) = drop_seps (p ++ [c]) ++ x
  /\ exists q, drop_seps (p ++ [c]) = q ++ [c] /\ length q <= length p.
Proof.
  induction p as [|h p IH]; cbn.
  - rewrite c_not_sep. split; [reflexivity|]. exists []. split; [reflexivity | cbn; lia].
  - destruct (IsSep h).
    + destruct IH as [E (q & Eq & Hq)]. split; [exact E|].
      exists q. split; [exact Eq | lia].
    + split; [cbn [app]; rewrite <- app_assoc; reflexivity|].
      exists (h :: p). split; [reflexivity | cbn; lia].
Qed.

Lemma digit_run_cut (p : wstring) :
  digit_run (p ++ c :: x) = digit_run (p ++ [c])
  /\ after_run (p ++ c :: x) = after_run (p ++ [c]) ++ x
  /\ (after_run (p ++ [c]) = []
      \/ exists q, after_run (p ++ [c]) = q ++ [c] /\ length q <= length p).
Proof.
  induction p as [|h p IH]; cbn.
  - destruct (iswdigit c) eqn:Dc.
    + destruct no_run_across as [H|H]; [discriminate|].
      rewrite H, (digit_run_nil_after x H). repeat split. left. reflexivity.
    + repeat split. right. exists []. split; [reflexivity | cbn; lia].
  - destruct (iswdigit h).
    + destruct IH as (E1 & E2 & H). rewrite E1.
      repeat split; [exact E2|].
      destruct H as [H|(q & Eq & Hq)]; [left; exact H|].
      right. exists q. split; [exact Eq | lia].
    + repeat split; [cbn [app]; rewrite <- app_assoc; reflexivity|].
      right. exists (h :: p). split; [reflexivity | cbn; lia].
Qed.

Lemma sort_key_cut_base : sort_key (c :: x) = sort_key [c] ++ sort_key x.
Proof.
  rewrite (sort_key_cons c x), (sort_key_cons c []). cbn [drop_seps].
  rewrite c_not_sep.
  destruct (digit_run_cut []) as (E1 & E2 & _). cbn [app] in E1, E2.
  unfold number_token. rewrite E1, E2.
  destruct (iswdigit c) eqn:Dc; [|reflexivity].
  cbn [after_run]. rewrite Dc. reflexivity.
Qed.

Lemma sort_key_cut (n : nat) (p : wstring) :
  length p <= n ->
  sort_key (p ++ c :: x) = sort_key (p ++ [c]) ++ sort_key x.
Proof.
  revert p. induction n as [n IH] using lt_wf_ind. intros p Hn.
  destruct p as [|h p]; [exact sort_key_cut_base|].
  destruct (drop_seps_cut (h :: p)) as [E (q & Eq & Hq)].
  rewrite (sort_key_drop_seps ((h :: p) ++ c :: x))
    by (rewrite E, Eq; destruct q; discriminate).
  rewrite (sort_key_drop_seps ((h :: p) ++ [c]))
    by (rewrite Eq; destruct q; discriminate).
  rewrite E, Eq. cbn [length] in Hq, Hn.
  destruct q as [|d q]; [exact sort_key_cut_base|].
  assert (Hd : IsSep d = false).
  { apply (drop_seps_head ((h :: p) ++ [c]) d (q ++ [c])). exact Eq. }
  rewrite <- app_assoc. cbn [app length] in *.
  rewrite (sort_key_cons d (q ++ c :: x)), (sort_key_cons d (q ++ [c])).
  cbn [drop_seps]. rewrite Hd.
  destruct (iswdigit d) eqn:Dd.
  - destruct (digit_run_cut (d :: q)) as (E1 & E2 & _).
    cbn [app] in E1, E2. unfold number_token. rewrite E1, E2.
    cbn [app]. f_equal.
    cbn [after_run]. rewrite Dd.
    destruct (digit_run_cut q) as (_ & _ & [H|(q2 & Eq2 & Hq2)]).
    + rewrite H. reflexivity.
    + rewrite Eq2, <- app_assoc. cbn [app].
      apply (IH (length q2)); lia.
  - cbn [app]. f_equal. apply (IH (length q)); lia.
Qed.
End Cut.

Lemma key_ltb_app (k k1 k2 : list (list Z)) :
  key_ltb (k ++ k1) (k ++ k2) = key_ltb k1 k2.
Proof.
  induction k as [|t k IH]; [reflexivity|].
  unfold key_ltb in *. cbn [app lex_ltb].
  rewrite token_ltb_irrefl. exact IH.
Qed.

Lemma NaturalLess_cut_beginning (q : wstring) (e : Z) (x y : wstring) :
  IsSep e = false -> iswdigit e = false ->
  NaturalLess ((q ++ [e]) ++ x) ((q ++ [e]) ++ y) = NaturalLess x y.
Proof.
  intros Hse Hde. rewrite !NaturalLess_key. rewrite <- !app_assoc.
  cbn [app].
  rewrite (sort_key_cut e x Hse (or_introl Hde) (length q) q (Nat.le_refl _)).
  rewrite (sort_key_cut e y Hse (or_introl Hde) (length q) q (Nat.le_refl _)).
  apply key_ltb_app.
Qed.

(** X19: a common beginning that ends in a character which is neither a
    separator nor a digit decides nothing: two names with that beginning
    compare as what follows it.  So the candidates, which all begin with
    ["bf2savefile"], are ranked by what follows the prefix. *)
Theorem NaturalLess_common_beginning (p : wstring) (c : wchar_t)
    (x y : wstring) :
  IsSep c = false -> iswdigit c = false ->
  NaturalLess ((p ++ [c]) ++ x) ((p ++ [c]) ++ y) = NaturalLess x y
  /\ NaturalLess (save_prefix ++ x) (save_prefix ++ y) = NaturalLess x y.
Proof.
  intros Hs Hd.
  split; [apply NaturalLess_cut_beginning; assumption|].
  apply (NaturalLess_cut_beginning (L "bf2savefil") 101%Z); reflexivity.
Qed.

Lemma NaturalLess_common_beginning_witness :
  NaturalLess ((L "sav" ++ [101%Z]) ++ L "2") ((L "sav" ++ [101%Z]) ++ L "10")
  = NaturalLess (L "2") (L "10").
Proof.
  apply (NaturalLess_common_beginning (L "sav") 101%Z (L "2") (L "10"));
    reflexivity.
Defined.

(** ** Separators at the end of a name *)

Lemma drop_seps_all (u : wstring) :
  Forall (fun z => IsSep z = true) u -> drop_seps u = [].
Proof.
  induction 1 as [|z u Hz _ IH]; [reflexivity|]. cbn. rewrite Hz. exact IH.
Qed.

Lemma sort_key_seps (u : wstring) :
  Forall (fun z => IsSep z = true) u -> u <> [] -> sort_key u = [[]].
Proof.
  intros Hu Hne. destruct u as [|z u]; [congruence|].
  rewrite (sort_key_cons z u), (drop_seps_all _ Hu). reflexivity.
Qed.

Lemma digit_run_seps (u : wstring) :
  Forall (fun z => IsSep z = true) u -> digit_run u = [].
Proof.
  intros H. destruct H as [|z w Hz _]; [reflexivity|]. cbn.
  rewrite (IsSep_not_digit z Hz). reflexivity.
Qed.

Lemma split_at_last_plain (a : wstring) :
  Forall (fun z => IsSep z = true) a
  \/ exists p c u,
       a = p ++ c :: u /\ IsSep c = false
       /\ Forall (fun z => IsSep z = true) u.
Proof.
  induction a as [|z a IH] using rev_ind; [left; constructor|].
  destruct (IsSep z) eqn:Hz.
  - destruct IH as [H|(p & c & u & -> & Hc & Hu)].
    + left. apply Forall_app. split; [exact H | repeat constructor; exact Hz].
    + right. exists p, c, (u ++ [z]). rewrite <- app_assoc.
      split; [reflexivity|]. split; [exact Hc|].
      apply Forall_app. split; [exact Hu | repeat constructor; exact Hz].
  - right. exists a, z, []. repeat split; [exact Hz | constructor].
Qed.

Lemma ends_with_sep_seps (p u : wstring) :
  Forall (fun z => IsSep z = true) u -> u <> [] ->
  ends_with_sep (p ++ u) = true.
Proof.
  intros Hu Hne. unfold ends_with_sep. rewrite rev_app_distr.
  destruct u as [|z u] using rev_ind; [congruence|].
  rewrite rev_app_distr. cbn.
  apply Forall_app in Hu as [_ Hz]. apply Forall_inv in Hz. exact Hz.
Qed.

Lemma compare_by_key (a b : wstring) :
  compare a b
  = if key_ltb (sort_key a) (sort_key b) then Less
    else if key_ltb (sort_key b) (sort_key a) then Greater
    else Equal.
Proof. unfold compare. rewrite !NaturalLess_key. reflexivity. Qed.

(** X20: separators added at the end of a name.  A name that does not
    end in a separator (the empty name among them) compares Less than
    the same name with separators added at its end; a name that ends in a
    separator already compares Equal to it. *)
Theorem NaturalLess_trailing_separators (a t : wstring) :
  Forall (fun z => IsSep z = true) t -> t <> [] ->
  compare a (a ++ t) = if ends_with_sep a then Equal else Less.
Proof.
  intros Ht Hne. rewrite compare_by_key.
  destruct (split_at_last_plain a) as [Ha|(p & c & u & -> & Hc & Hu)].
  - destruct a as [|z a].
    + cbn [app]. rewrite (sort_key_seps t Ht Hne). reflexivity.
    + rewrite (sort_key_seps (z :: a) Ha) by discriminate.
      rewrite (sort_key_seps ((z :: a) ++ t)) by
        (try discriminate; apply Forall_app; split; assumption).
      pose proof (ends_with_sep_seps [] (z :: a) Ha ltac:(discriminate)) as E.
      cbn [app] in E. rewrite E. reflexivity.
  - rewrite <- app_assoc. cbn [app].
    rewrite (sort_key_cut c u Hc (or_intror (digit_run_seps u Hu))
               (length p) p (Nat.le_refl _)).
    assert (Hut : Forall (fun z => IsSep z = true) (u ++ t))
      by (apply Forall_app; split; assumption).
    rewrite (sort_key_cut c (u ++ t) Hc (or_intror (digit_run_seps _ Hut))
               (length p) p (Nat.le_refl _)).
    rewrite !key_ltb_app.
    rewrite (sort_key_seps (u ++ t) Hut)
      by (destruct u; [exact Hne | discriminate]).
    destruct u as [|z u].
    + replace (ends_with_sep (p ++ [c])) with false; [reflexivity|].
      unfold ends_with_sep. rewrite rev_app_distr. cbn. congruence.
    + rewrite (sort_key_seps (z :: u) Hu) by discriminate.
      change (p ++ c :: z :: u) with (p ++ [c] ++ (z :: u)).
      rewrite app_assoc.
      rewrite (ends_with_sep_seps (p ++ [c]) (z :: u) Hu) by discriminate.
      reflexivity.
Qed.

Lemma NaturalLess_trailing_separators_witness :
  compare (L "bf2savefile1") (L "bf2savefile1" ++ L "_.") = Less.
Proof.
  apply (NaturalLess_trailing_separators (L "bf2savefile1") (L "_."));
    [repeat constructor | discriminate].
Defined.

(** ** Numbered names *)

Lemma digit_not_sep (d : Z) : iswdigit d = true -> IsSep d = false.
Proof.
  intros H. destruct (IsSep d) eqn:E; [|reflexivity].
  rewrite (IsSep_not_digit d E) in H. discriminate.
Qed.

Lemma sort_key_number (x : wstring) :
  digit_run x <> [] ->
  sort_key x = number_token x :: sort_key (after_run x).
Proof.
  destruct x as [|d x]; [cbn; congruence|]. intros H.
  assert (Dd : iswdigit d = true).
  { cbn in H. destruct (iswdigit d); [reflexivity | congruence]. }
  rewrite (sort_key_cons d x). cbn [drop_seps].
  rewrite (digit_not_sep d Dd), Dd. reflexivity.
Qed.

Lemma magnitude_nonneg (x : wstring) : (0 <= magnitude (digit_run x))%Z.
Proof.
  apply magnitude_nonneg_from; [apply digit_run_digits | lia].
Qed.

Lemma number_first (x y : wstring) :
  digit_run x <> [] -> digit_run y <> [] ->
  (magnitude (digit_run y) < 2 ^ 64)%Z ->
  (magnitude (digit_run x) < magnitude (digit_run y))%Z
  \/ (magnitude (digit_run x) = magnitude (digit_run y)
      /\ length (digit_run x) < length (digit_run y)) ->
  NaturalLess x y = true /\ NaturalLess y x = false.
Proof.
  intros Hx Hy Hb Hlt. rewrite !NaturalLess_key.
  rewrite (sort_key_number x Hx), (sort_key_number y Hy).
  unfold number_token, key_ltb. cbn [lex_ltb].
  unfold token_ltb. cbn [lex_ltb]. rewrite Z.ltb_irrefl.
  pose proof (magnitude_nonneg x) as Hx0.
  rewrite (run_value_magnitude y) by exact Hb.
  rewrite (run_value_magnitude x) by (unfold two64; lia).
  destruct Hlt as [Hlt|[He Hl]].
  - rewrite (proj2 (Z.ltb_lt _ _) Hlt).
    rewrite (proj2 (Z.ltb_ge _ _)) by lia.
    split; reflexivity.
  - rewrite He, Z.ltb_irrefl.
    rewrite (proj2 (Z.ltb_lt (Z.of_nat _) (Z.of_nat _))) by lia.
    rewrite (proj2 (Z.ltb_ge (Z.of_nat _) (Z.of_nat _))) by lia.
    split; reflexivity.
Qed.

(** X21: numbered names rank by their number.  Of two names that go on
    with a digit run after a common beginning that ends in a character
    which is neither a separator nor a digit ("bf2savefile", say), the one
    whose run has the smaller magnitude compares Less, as long as the
    magnitudes are below [2^64]; of two runs of equal magnitude the
    shorter compares Less. *)
Theorem numbered_names_rank_by_number (p : wstring) (c : wchar_t)
    (x y : wstring) :
  IsSep c = false -> iswdigit c = false ->
  digit_run x <> [] -> digit_run y <> [] ->
  (magnitude (digit_run y) < 2 ^ 64)%Z ->
  (magnitude (digit_run x) < magnitude (digit_run y))%Z
  \/ (magnitude (digit_run x) = magnitude (digit_run y)
      /\ length (digit_run x) < length (digit_run y)) ->
  compare ((p ++ [c]) ++ x) ((p ++ [c]) ++ y) = Less
  /\ compare ((p ++ [c]) ++ y) ((p ++ [c]) ++ x) = Greater
  /\ compare (save_prefix ++ x) (save_prefix ++ y) = Less.
Proof.
  intros Hs Hd Hx Hy Hb Hlt.
  destruct (number_first x y Hx Hy Hb Hlt) as [Hxy Hyx].
  assert (E : NaturalLess (save_prefix ++ x) (save_prefix ++ y)
              = NaturalLess x y)
    by exact (NaturalLess_cut_beginning (L "bf2savefil") 101%Z x y
                eq_refl eq_refl).
  unfold compare.
  rewrite !(NaturalLess_cut_beginning p c) by assumption.
  rewrite E, Hxy, Hyx. repeat split.
Qed.

Lemma numbered_names_rank_by_number_witness :
  compare (save_prefix ++ L "2.sav") (save_prefix ++ L "10.sav") = Less.
Proof.
  apply (numbered_names_rank_by_number (L "bf2savefil") 101%Z
           (L "2.sav") (L "10.sav"));
    try reflexivity; try discriminate.
  left. reflexivity.
Defined.
